(** * RhythmGame: note timing, hit detection and session state

    A shallow embedding of [src/components/RhythmGame.tsx].

    The React component keeps its state in three [useState] cells
    ([notes], [isPlaying], [score]) and one ref ([startTimeRef]); its
    callbacks are embedded as functions from the committed state to the next
    state.  Each callback is taken to run against the state committed by the
    previous one, so the list closed over by a callback is the list its
    functional updater receives.

    JavaScript numbers that hold times and pixel positions are modelled as
    exact rationals ([Q]); the score, key codes, MIDI pitches, [Date.now()]
    and canvas dimensions are integers ([Z]).  Rounding of binary64
    arithmetic is not modelled there.  Where the answer depends on rounding,
    at the boundary of the hit window, [handleKeyDown] is embedded a second
    time over binary64 values ([Binary64]).

    The calls [gameLoop] and [drawArrow] make on the canvas context, the
    storage helpers of [src/lib/supabase.ts] and the redirect of
    [src/app/game/page.tsx] are embedded as well; strings are lists of
    UTF-16 code units, and what lies outside the repository (Unicode
    normalization, the storage client) is taken as a parameter. *)

From Stdlib Require DecimalString DecimalN DecimalPos.
From Stdlib Require Import PrimFloat.
From Stdlib Require Import String Ascii ZArith QArith Qabs Qround List Bool Lia Lqa.
Import ListNotations.

Open Scope Q_scope.

(** ** Array helpers of the JavaScript runtime *)

Section ArrayHelpers.
Context {A : Type}.

(** [Array.prototype.findIndex]: index of the first element satisfying
    the predicate, [-1] when there is none. *)
Fixpoint findIndex_from (p : A -> bool) (l : list A) (i : Z) : Z :=
  match l with
  | [] => (-1)%Z
  | x :: r => if p x then i else findIndex_from p r (i + 1)%Z
  end.

Definition findIndex (p : A -> bool) (l : list A) : Z :=
  findIndex_from p l 0%Z.

(** [Array.prototype.filter] with the two-argument callback
    [(element, index) => ...]. *)
Fixpoint filter_from (p : A -> Z -> bool) (l : list A) (i : Z) : list A :=
  match l with
  | [] => []
  | x :: r =>
      if p x i then x :: filter_from p r (i + 1)%Z
      else filter_from p r (i + 1)%Z
  end.

Definition filter_indexed (p : A -> Z -> bool) (l : list A) : list A :=
  filter_from p l 0%Z.
End ArrayHelpers.

(** [x < y] on numbers, as a boolean. *)
Definition Qltb (x y : Q) : bool := negb (Qle_bool y x).

(** ** Data model *)

Inductive Direction : Set := LEFT | UP | RIGHT | DOWN.

(** [const ARROW_KEYS = { 37: 'LEFT', 38: 'UP', 39: 'RIGHT', 40: 'DOWN' }].
    Indexing the object with any other number gives [undefined], which is
    [None] here. *)
Definition ARROW_KEYS (k : Z) : option Direction :=
  match k with
  | 37%Z => Some LEFT
  | 38%Z => Some UP
  | 39%Z => Some RIGHT
  | 40%Z => Some DOWN
  | _ => None
  end.

Definition Direction_eqb (a b : Direction) : bool :=
  match a, b with
  | LEFT, LEFT | UP, UP | RIGHT, RIGHT | DOWN, DOWN => true
  | _, _ => false
  end.

(** Strict equality [===] on values that are a direction string or
    [undefined]. *)
Definition strict_eq (a b : option Direction) : bool :=
  match a, b with
  | Some x, Some y => Direction_eqb x y
  | None, None => true
  | _, _ => false
  end.

(** [interface Note { time; direction; y }].  The declared type of
    [direction] excludes [undefined], but [loadMidi] stores whatever the
    table lookup returns, hence the option. *)
Record Note : Type := mkNote {
  time : Q;
  direction : option Direction;
  y : Q
}.

(** What [new Midi(arrayBuffer)] exposes and [loadMidi] reads: the tracks,
    and of each note event its start time in seconds and its pitch. *)
Record MidiNote : Type := mkMidiNote {
  ev_time : Q;
  ev_midi : Z
}.

Record Track : Type := mkTrack { track_notes : list MidiNote }.

Record Midi : Type := mkMidi { tracks : list Track }.

(** Values thrown inside the [try] block of [loadMidi]. *)
Inductive Thrown : Set :=
| NetworkError   (* fetch or response.arrayBuffer() rejects *)
| ParseError     (* new Midi(arrayBuffer) throws *)
| TypeError.     (* midi.tracks[0] is undefined *)

(** What the network and the MIDI parser answer for [midiUrl]. *)
Inductive LoadOutcome : Type :=
| FetchFails
| ParseFails
| Parsed (m : Midi).

(** The canvas element, sized by [handleResize]. *)
Record Canvas : Type := mkCanvas {
  width : Z;
  height : Z
}.

(** State of one mounted component. *)
Record State : Type := mkState {
  notes : list Note;            (* useState<Note[]>([]) *)
  isPlaying : bool;             (* useState(false) *)
  score : Z;                    (* useState(0) *)
  startTimeRef : Q;             (* useRef<number>(0), 0 meaning not latched *)
  audioCurrentTime : Q;         (* audioRef.current.currentTime, last written *)
  audioPlaying : bool;          (* audioRef.current.play() was called *)
  console : list Thrown         (* console.error calls, latest first *)
}.

Definition mount : State :=
  {| notes := []; isPlaying := false; score := 0%Z; startTimeRef := 0;
     audioCurrentTime := 0; audioPlaying := false; console := [] |}.

Definition setNotes (f : list Note -> list Note) (s : State) : State :=
  {| notes := f (notes s); isPlaying := isPlaying s; score := score s;
     startTimeRef := startTimeRef s; audioCurrentTime := audioCurrentTime s;
     audioPlaying := audioPlaying s; console := console s |}.

Definition setScore (f : Z -> Z) (s : State) : State :=
  {| notes := notes s; isPlaying := isPlaying s; score := f (score s);
     startTimeRef := startTimeRef s; audioCurrentTime := audioCurrentTime s;
     audioPlaying := audioPlaying s; console := console s |}.

Definition setIsPlaying (b : bool) (s : State) : State :=
  {| notes := notes s; isPlaying := b; score := score s;
     startTimeRef := startTimeRef s; audioCurrentTime := audioCurrentTime s;
     audioPlaying := audioPlaying s; console := console s |}.

Definition setStartTimeRef (t : Q) (s : State) : State :=
  {| notes := notes s; isPlaying := isPlaying s; score := score s;
     startTimeRef := t; audioCurrentTime := audioCurrentTime s;
     audioPlaying := audioPlaying s; console := console s |}.

Definition console_error (e : Thrown) (s : State) : State :=
  {| notes := notes s; isPlaying := isPlaying s; score := score s;
     startTimeRef := startTimeRef s; audioCurrentTime := audioCurrentTime s;
     audioPlaying := audioPlaying s; console := e :: console s |}.

(** ** Note Source: [loadMidi] *)

(** The callback of [midi.tracks[0].notes.map(...)]. *)
Definition toNote (note : MidiNote) : Note :=
  {| time := ev_time note;
     direction := ARROW_KEYS (ev_midi note);
     y := -100 |}.

(** The body of the [try] block up to the value handed to [setNotes]. *)
Definition loadMidi_try (o : LoadOutcome) : Thrown + list Note :=
  match o with
  | FetchFails => inl NetworkError
  | ParseFails => inl ParseError
  | Parsed midi =>
      match tracks midi with
      | [] => inl TypeError
      | track0 :: _ => inr (map toNote (track_notes track0))
      end
  end.

(** [try { ...; setNotes(midiNotes) } catch (error) { console.error(...) }] *)
Definition loadMidi (o : LoadOutcome) (s : State) : State :=
  match loadMidi_try o with
  | inr midiNotes => setNotes (fun _ => midiNotes) s
  | inl error => console_error error s
  end.

(** ** Input Judge: [handleKeyDown] *)

Definition hitWindow : Q := 0.15.

(** [const currentTime = (Date.now() - startTimeRef.current) / 1000] *)
Definition keyCurrentTime (now : Z) (s : State) : Q :=
  (inject_Z now - startTimeRef s) / 1000.

(** The predicate handed to [notes.findIndex]. *)
Definition isHit (keyCode : Z) (currentTime : Q) (note : Note) : bool :=
  strict_eq (ARROW_KEYS keyCode) (direction note)
  && Qltb (Qabs (time note - currentTime)) hitWindow.

(** [keyCode] is [e.keyCode]; [now] is what [Date.now()] returns. *)
Definition handleKeyDown (keyCode : Z) (now : Z) (s : State) : State :=
  if negb (isPlaying s) then s
  else
    let currentTime := keyCurrentTime now s in
    let noteIndex := findIndex (isHit keyCode currentTime) (notes s) in
    if negb (noteIndex =? -1)%Z then
      setNotes (filter_indexed (fun _ i => negb (i =? noteIndex)%Z))
        (setScore (fun prev => (prev + 100)%Z) s)
    else s.

(** ** Timing Clock and Render Loop: [gameLoop] *)

Definition speed : Q := 200.

(** [if (!startTimeRef.current) startTimeRef.current = timestamp] *)
Definition latch (timestamp : Q) (s : State) : Q :=
  if Qeq_bool (startTimeRef s) 0 then timestamp else startTimeRef s.

(** [const elapsed = timestamp - startTimeRef.current;
     const currentTime = elapsed / 1000], after the latch. *)
Definition frameCurrentTime (timestamp : Q) (s : State) : Q :=
  let elapsed := timestamp - latch timestamp s in
  elapsed / 1000.

(** The object built by the [prev.map] callback of [gameLoop]. *)
Definition reposition (currentTime : Q) (canvas : Canvas) (note : Note) : Note :=
  {| time := time note;
     direction := direction note;
     y := ((time note - currentTime) * speed) + inject_Z (height canvas) - 50 |}.

(** One frame.  The drawing calls write to the canvas only and are left out;
    [timestamp] is the argument passed by [requestAnimationFrame]. *)
Definition gameLoop (timestamp : Q) (canvas : Canvas) (s : State) : State :=
  let currentTime := frameCurrentTime timestamp s in
  setNotes (map (reposition currentTime canvas))
    (setStartTimeRef (latch timestamp s) s).

(** ** Session State: [handleStart] *)

(** [audioRef.current.currentTime = 0; audioRef.current.play()]; the
    [<audio>] element is always rendered, so the ref is set. *)
Definition audio_restart (s : State) : State :=
  {| notes := notes s; isPlaying := isPlaying s; score := score s;
     startTimeRef := startTimeRef s; audioCurrentTime := 0;
     audioPlaying := true; console := console s |}.

Definition handleStart (s : State) : State :=
  audio_restart
    (setStartTimeRef 0
       (setScore (fun _ => 0%Z)
          (setIsPlaying true s))).

(** ** The component as a transition system *)

Inductive Event : Type :=
| LoadSettled (o : LoadOutcome)              (* the promise of loadMidi settles *)
| StartPressed                               (* onClick of the Start button *)
| KeyDown (keyCode : Z) (now : Z)            (* handleKeyDown is called *)
| AnimationFrame (timestamp : Q) (canvas : Canvas).

(** The frame callback is only scheduled while [isPlaying] holds (the effect
    returns early otherwise).  The Start button is rendered only while not
    playing; [dispatch] does not use that, so the states it reaches include
    all those the interface reaches. *)
Definition dispatch (e : Event) (s : State) : State :=
  match e with
  | LoadSettled o => loadMidi o s
  | StartPressed => handleStart s
  | KeyDown keyCode now => handleKeyDown keyCode now s
  | AnimationFrame timestamp canvas =>
      if isPlaying s then gameLoop timestamp canvas s else s
  end.

(** Events are listed in the order they happen. *)
Definition run (es : list Event) (s : State) : State :=
  fold_left (fun st e => dispatch e st) es s.

Inductive reachable : State -> Prop :=
| reachable_mount : reachable mount
| reachable_step e s : reachable s -> reachable (dispatch e s).

(** ** Platform clocks

    [Date.now()] counts milliseconds since the Unix epoch.  The timestamp a
    [requestAnimationFrame] callback receives is a [DOMHighResTimeStamp],
    milliseconds since the page's time origin.  An instant is given by its
    high-resolution time [t]; [timeOrigin] is the epoch time of the page's
    time origin. *)
Definition Date_now (timeOrigin : Z) (t : Q) : Z := (timeOrigin + Qfloor t)%Z.

Definition rafTimestamp (t : Q) : Q := t.

(** ** Vocabulary of the specification *)

(** A note qualifies for an input when the direction of the pressed key is
    the note's direction and the note's time is strictly within the hit
    window of the elapsed time. *)
Definition qualifies (keyCode : Z) (elapsed : Q) (n : Note) : Prop :=
  ARROW_KEYS keyCode = direction n /\ Qabs (time n - elapsed) < 0.15.

(** The state after a registered hit that leaves the notes [rest]. *)
Definition hit_state (rest : list Note) (s : State) : State :=
  setNotes (fun _ => rest) (setScore (fun prev => (prev + 100)%Z) s).

(** A key code or pitch that is not a key of [ARROW_KEYS]. *)
Definition unmapped (k : Z) : Prop :=
  (k <> 37 /\ k <> 38 /\ k <> 39 /\ k <> 40)%Z.

(** A load that ends in the [catch] block. *)
Definition load_failed (o : LoadOutcome) : bool :=
  match loadMidi_try o with
  | inl _ => true
  | inr _ => false
  end.

(** No event of the list is a load that succeeds. *)
Definition no_load_succeeds (es : list Event) : bool :=
  forallb (fun e => match e with
                    | LoadSettled o => load_failed o
                    | _ => true
                    end) es.

(** ** Sample sessions *)

(** A session in progress: start latched at 1000 ms, two hits so far, and
    three pending notes, Left at 2.0 s, Up at 1.95 s and Up at 2.05 s. *)
Definition session_three : State :=
  {| notes := [ mkNote 2 (Some LEFT) 350;
                mkNote 1.95 (Some UP) 340;
                mkNote 2.05 (Some UP) 360 ];
     isPlaying := true; score := 200%Z; startTimeRef := 1000;
     audioCurrentTime := 0; audioPlaying := true; console := [] |}.

(** The same notes before Start was pressed. *)
Definition session_idle : State := setIsPlaying false session_three.

(** A session in progress with one pending Up note at 2.0 s. *)
Definition session_up : State :=
  {| notes := [ mkNote 2 (Some UP) 350 ];
     isPlaying := true; score := 0%Z; startTimeRef := 1000;
     audioCurrentTime := 0; audioPlaying := true; console := [] |}.

(** A MIDI file whose first track holds one note of pitch 60 (middle C, not
    a key of [ARROW_KEYS]) at 2.0 s. *)
Definition midi_middle_c : Midi :=
  {| tracks := [ {| track_notes := [ {| ev_time := 2; ev_midi := 60 |} ] |} ] |}.

Definition canvas_800x600 : Canvas := {| width := 800; height := 600 |}.

(** Load that file, press Start, render a first frame at 1000 ms and one at
    2900 ms. *)
Definition session_middle_c : State :=
  run [ LoadSettled (Parsed midi_middle_c);
        StartPressed;
        AnimationFrame 1000 canvas_800x600;
        AnimationFrame 2900 canvas_800x600 ] mount.

(** A MIDI file with two tracks; the first holds a Left, an unmapped and a
    Down pitch. *)
Definition midi_two_tracks : Midi :=
  {| tracks :=
       [ {| track_notes := [ {| ev_time := 0.5; ev_midi := 37 |};
                             {| ev_time := 1; ev_midi := 60 |};
                             {| ev_time := 1.5; ev_midi := 40 |} ] |};
         {| track_notes := [ {| ev_time := 9; ev_midi := 38 |} ] |} ] |}.

(** A MIDI file whose first track holds one Up note (pitch 38) at 2.0 s. *)
Definition midi_up : Midi :=
  {| tracks := [ {| track_notes := [ {| ev_time := 2; ev_midi := 38 |} ] |} ] |}.

(** Load it, press Start, render a frame at 1000 ms, and press Up when
    [Date.now()] reads 3050: the note is hit. *)
Definition session_after_hit : State :=
  run [ LoadSettled (Parsed midi_up);
        StartPressed;
        AnimationFrame 1000 canvas_800x600;
        KeyDown 38 3050 ] mount.

(** A MIDI file whose first track holds one Left note (pitch 37) at 5.0 s. *)
Definition midi_left : Midi :=
  {| tracks := [ {| track_notes := [ {| ev_time := 5; ev_midi := 37 |} ] |} ] |}.

(** Load it, press Start, and render a first frame at [t0] and a frame six
    seconds later, with no input. *)
Definition session_missed (canvas : Canvas) (t0 : Q) : State :=
  run [ LoadSettled (Parsed midi_left);
        StartPressed;
        AnimationFrame t0 canvas;
        AnimationFrame (t0 + 6000) canvas ] mount.

(** A page whose time origin lies 1 700 000 000 000 ms after the epoch; Start
    is pressed and the first frame comes 1000 ms after the time origin. *)
Definition page_timeOrigin : Z := 1700000000000.

Definition session_latched : State :=
  run [ StartPressed; AnimationFrame (rafTimestamp 1000) canvas_800x600 ] mount.

(** ** The rest of the component *)

(** The four buttons of the mobile controls, in the order of the markup. *)
Inductive TouchButton : Set :=
| ButtonLeft | ButtonUp | ButtonDown | ButtonRight.

(** [onTouchStart={() => handleKeyDown({ keyCode: ... } as KeyboardEvent)}] *)
Definition onTouchStart (b : TouchButton) (now : Z) (s : State) : State :=
  match b with
  | ButtonLeft => handleKeyDown 37 now s
  | ButtonUp => handleKeyDown 38 now s
  | ButtonDown => handleKeyDown 40 now s
  | ButtonRight => handleKeyDown 39 now s
  end.

(** The arrow shown on each button. *)
Definition button_arrow (b : TouchButton) : Direction :=
  match b with
  | ButtonLeft => LEFT
  | ButtonUp => UP
  | ButtonDown => DOWN
  | ButtonRight => RIGHT
  end.

(** ** Drawing: [drawArrow] and the drawing part of [gameLoop] *)

(** JavaScript strings are sequences of UTF-16 code units. *)
Definition JSString : Type := list Z.

(** A string literal of the source, all of whose characters are ASCII. *)
Definition lit (s : string) : JSString :=
  map (fun c => Z.of_N (N_of_ascii c)) (list_ascii_of_string s).

(** The calls made on the 2D context.  Every angle passed to [ctx.rotate]
    in the source is a multiple of [Math.PI / 2]; [rotate k] stands for
    [ctx.rotate(k * Math.PI / 2)]. *)
Inductive CanvasCall : Type :=
| clearRect (x y w h : Q)
| set_strokeStyle (colour : JSString)
| set_lineWidth (w : Q)
| set_fillStyle (colour : JSString)
| beginPath
| moveTo (x y : Q)
| lineTo (x y : Q)
| closePath
| stroke
| fill
| save
| restore
| translate (x y : Q)
| rotate (quarterTurns : Z).

(** [function drawArrow(x, y, direction)].  The [switch] has no default
    case: for a note without direction no [rotate] call is made. *)
Definition drawArrow (x y : Q) (direction : option Direction)
  : list CanvasCall :=
  [ save; translate x y ]
  ++ match direction with
     | Some UP => [ rotate 0 ]
     | Some DOWN => [ rotate 2 ]
     | Some LEFT => [ rotate (-1) ]
     | Some RIGHT => [ rotate 1 ]
     | None => []
     end
  ++ [ beginPath; moveTo 0 (-15); lineTo 10 0; lineTo (-10) 0; closePath;
       set_fillStyle (lit "#fff"); fill; restore ].

(** [['LEFT', 'UP', 'DOWN', 'RIGHT'].indexOf(d)], with [-1] when [d] is not
    in the array. *)
Definition lane_order : list (option Direction) :=
  [ Some LEFT; Some UP; Some DOWN; Some RIGHT ].

Definition indexOf (l : list (option Direction)) (d : option Direction) : Z :=
  findIndex (fun v => strict_eq v d) l.

(** [canvas.width * (0.3 + i * 0.15)] *)
Definition lane_x (canvas : Canvas) (i : Z) : Q :=
  inject_Z (width canvas) * (0.3 + inject_Z i * 0.15).

(** The body of the [for] loop that draws the target lines. *)
Definition draw_lane (canvas : Canvas) (i : Z) : list CanvasCall :=
  let x := lane_x canvas i in
  [ beginPath; moveTo x 0; lineTo x (inject_Z (height canvas)); stroke ].

(** The callback of [notes.forEach]. *)
Definition draw_note (canvas : Canvas) (note : Note) : list CanvasCall :=
  let x := lane_x canvas (indexOf lane_order (direction note)) in
  drawArrow x (y note) (direction note).

(** The calls one run of [gameLoop] makes on the context.  [notes] is the
    list the callback closes over, the committed state; the positions that
    [setNotes] computes in the same frame are not in it yet. *)
Definition gameLoop_draws (canvas : Canvas) (s : State) : list CanvasCall :=
  [ clearRect 0 0 (inject_Z (width canvas)) (inject_Z (height canvas));
    set_strokeStyle (lit "#333");
    set_lineWidth 2 ]
  ++ flat_map (draw_lane canvas) [ 0; 1; 2; 3 ]%Z
  ++ flat_map (draw_note canvas) (notes s).

(** *** What the calls paint

    The geometry of the 2D context: a current transformation matrix, a
    stack of saved matrices, the current path as a list of subpaths, and
    what has been stroked and filled, in device coordinates. *)

Definition Point : Type := (Q * Q)%type.

(** The matrix [[a c e] [b d f]]: (x, y) goes to
    (a x + c y + e, b x + d y + f). *)
Record Matrix : Type := mkMatrix {
  m_a : Q; m_b : Q; m_c : Q; m_d : Q; m_e : Q; m_f : Q
}.

Definition identity : Matrix :=
  {| m_a := 1; m_b := 0; m_c := 0; m_d := 1; m_e := 0; m_f := 0 |}.

Definition transform (m : Matrix) (p : Point) : Point :=
  (m_a m * fst p + m_c m * snd p + m_e m,
   m_b m * fst p + m_d m * snd p + m_f m).

(** Cosine and sine of [k] quarter turns. *)
Definition cos_quarter (k : Z) : Q :=
  match (k mod 4)%Z with 0%Z => 1 | 2%Z => -1 | _ => 0 end.

Definition sin_quarter (k : Z) : Q :=
  match (k mod 4)%Z with 1%Z => 1 | 3%Z => -1 | _ => 0 end.

Record Painted : Type := mkPainted {
  ctm : Matrix;
  saved : list Matrix;
  path : list (list Point);
  cleared : list (Q * Q * Q * Q);
  stroked : list (list Point);
  filled : list (list Point)
}.

Definition blank : Painted :=
  {| ctm := identity; saved := []; path := []; cleared := [];
     stroked := []; filled := [] |}.

(** Adds a point to the last subpath; with no subpath it starts one. *)
Fixpoint extend_path (subpaths : list (list Point)) (p : Point)
  : list (list Point) :=
  match subpaths with
  | [] => [ [ p ] ]
  | [ sub ] => [ sub ++ [ p ] ]
  | sub :: rest => sub :: extend_path rest p
  end.

Definition paint (g : Painted) (call : CanvasCall) : Painted :=
  match call with
  | clearRect x y w h =>
      {| ctm := ctm g; saved := saved g; path := path g;
         cleared := cleared g ++ [ (x, y, w, h) ];
         stroked := stroked g; filled := filled g |}
  | set_strokeStyle _ | set_lineWidth _ | set_fillStyle _ | closePath => g
  | beginPath =>
      {| ctm := ctm g; saved := saved g; path := [];
         cleared := cleared g; stroked := stroked g; filled := filled g |}
  | moveTo x y =>
      {| ctm := ctm g; saved := saved g;
         path := path g ++ [ [ transform (ctm g) (x, y) ] ];
         cleared := cleared g; stroked := stroked g; filled := filled g |}
  | lineTo x y =>
      {| ctm := ctm g; saved := saved g;
         path := extend_path (path g) (transform (ctm g) (x, y));
         cleared := cleared g; stroked := stroked g; filled := filled g |}
  | stroke =>
      {| ctm := ctm g; saved := saved g; path := path g;
         cleared := cleared g; stroked := stroked g ++ path g;
         filled := filled g |}
  | fill =>
      {| ctm := ctm g; saved := saved g; path := path g;
         cleared := cleared g; stroked := stroked g;
         filled := filled g ++ path g |}
  | save =>
      {| ctm := ctm g; saved := ctm g :: saved g; path := path g;
         cleared := cleared g; stroked := stroked g; filled := filled g |}
  | restore =>
      match saved g with
      | [] => g
      | m :: rest =>
          {| ctm := m; saved := rest; path := path g;
             cleared := cleared g; stroked := stroked g; filled := filled g |}
      end
  | translate tx ty =>
      let m := ctm g in
      {| ctm := {| m_a := m_a m; m_b := m_b m; m_c := m_c m; m_d := m_d m;
                   m_e := m_a m * tx + m_c m * ty + m_e m;
                   m_f := m_b m * tx + m_d m * ty + m_f m |};
         saved := saved g; path := path g;
         cleared := cleared g; stroked := stroked g; filled := filled g |}
  | rotate k =>
      let m := ctm g in
      let co := cos_quarter k in
      let si := sin_quarter k in
      {| ctm := {| m_a := m_a m * co + m_c m * si;
                   m_b := m_b m * co + m_d m * si;
                   m_c := m_c m * co - m_a m * si;
                   m_d := m_d m * co - m_b m * si;
                   m_e := m_e m; m_f := m_f m |};
         saved := saved g; path := path g;
         cleared := cleared g; stroked := stroked g; filled := filled g |}
  end.

Definition paint_all (calls : list CanvasCall) (g : Painted) : Painted :=
  fold_left paint calls g.

(** The unit vector, in canvas coordinates (y grows downwards), in which an
    arrow of the given direction should point. *)
Definition heading (d : option Direction) : Q * Q :=
  match d with
  | Some UP | None => (0, -1)
  | Some DOWN => (0, 1)
  | Some LEFT => (-1, 0)
  | Some RIGHT => (1, 0)
  end.

(** The triangle with its base centred at (x, y), 20 wide, and its tip 15
    away from the base in the heading [(dx, dy)]. *)
Definition arrow_at (x y : Q) (h : Q * Q) : list Point :=
  let (dx, dy) := h in
  [ (x + 15 * dx, y + 15 * dy);
    (x - 10 * dy, y + 10 * dx);
    (x + 10 * dy, y - 10 * dx) ].

Definition point_eq (p q : Point) : Prop :=
  fst p == fst q /\ snd p == snd q.

(** Two pictures with the same shapes, coordinate by coordinate. *)
Definition same_shapes (a b : list (list Point)) : Prop :=
  Forall2 (Forall2 point_eq) a b.

(** The lane a direction is drawn in: Left, Up, Down, Right from left to
    right. *)
Definition lane_of (d : Direction) : Z :=
  match d with LEFT => 0 | UP => 1 | DOWN => 2 | RIGHT => 3 end.

(** ** The rendered interface

    [{!isPlaying && <button onClick={handleStart}>}]: the Start button only
    exists while no session is active, so a press can only arrive then. *)
Definition ui_dispatch (e : Event) (s : State) : State :=
  match e with
  | StartPressed => if isPlaying s then s else handleStart s
  | _ => dispatch e s
  end.

Definition ui_run (es : list Event) (s : State) : State :=
  fold_left (fun st e => ui_dispatch e st) es s.

(** ** Vocabulary for runs *)

(** While no session is active the score is 0 and the start is unset. *)
Definition idle_is_fresh (s : State) : Prop :=
  isPlaying s = false -> score s = 0%Z /\ startTimeRef s = 0.

Definition is_start (e : Event) : bool :=
  match e with StartPressed => true | _ => false end.

Definition is_key_or_frame (e : Event) : bool :=
  match e with KeyDown _ _ | AnimationFrame _ _ => true | _ => false end.

Definition is_frame (e : Event) : bool :=
  match e with AnimationFrame _ _ => true | _ => false end.

(** What identifies a note: its time and its direction. *)
Definition note_key (n : Note) : Q * option Direction :=
  (time n, direction n).

(** [subseq l1 l2]: [l1] is [l2] with some elements left out, in order. *)
Inductive subseq {A : Type} : list A -> list A -> Prop :=
| subseq_nil : subseq [] []
| subseq_skip x l1 l2 : subseq l1 l2 -> subseq l1 (x :: l2)
| subseq_keep x l1 l2 : subseq l1 l2 -> subseq (x :: l1) (x :: l2).

(** The notes of a list that qualify for an input. *)
Definition candidates (keyCode : Z) (currentTime : Q) (l : list Note)
  : list Note :=
  filter (isHit keyCode currentTime) l.

(** The same key pressed [k] times at the same reading of the clock. *)
Fixpoint press (k : nat) (keyCode now : Z) (s : State) : State :=
  match k with
  | O => s
  | S k' => press k' keyCode now (handleKeyDown keyCode now s)
  end.

(** The notes of a list that carry no direction. *)
Definition undirected (l : list Note) : list Note :=
  filter (fun n => match direction n with None => true | Some _ => false end) l.

(** The number of loads among the events that end in the [catch] block. *)
Definition failed_loads (es : list Event) : nat :=
  length (filter (fun e => match e with
                           | LoadSettled o => load_failed o
                           | _ => false
                           end) es).

(** ** Storage helpers: [lib/supabase.ts] *)

(** [[\u0300-\u036f]], on code units. *)
Definition is_diacritic (c : Z) : bool :=
  (768 <=? c)%Z && (c <=? 879)%Z.

(** [[a-zA-Z0-9.-]] *)
Definition is_plain (c : Z) : bool :=
  ((97 <=? c)%Z && (c <=? 122)%Z)
  || ((65 <=? c)%Z && (c <=? 90)%Z)
  || ((48 <=? c)%Z && (c <=? 57)%Z)
  || (c =? 46)%Z
  || (c =? 45)%Z.

Definition underscore : Z := 95.

(** [.replace(/_{2,}/g, '_')]: every maximal run of two or more underscores
    becomes one underscore.  [in_run] holds when the code unit before was an
    underscore, whose run has been given its underscore already. *)
Fixpoint squeeze_underscores (in_run : bool) (s : JSString) : JSString :=
  match s with
  | [] => []
  | c :: r =>
      if (c =? underscore)%Z then
        if in_run then squeeze_underscores true r
        else underscore :: squeeze_underscores true r
      else c :: squeeze_underscores false r
  end.

(** [function sanitizeFilename(filename)].  [normalize] stands for
    [String.prototype.normalize('NFD')], whose Unicode tables are not part
    of the repository. *)
Definition sanitizeFilename (normalize : JSString -> JSString)
    (filename : JSString) : JSString :=
  squeeze_underscores false
    (map (fun c => if is_plain c then c else underscore)
       (filter (fun c => negb (is_diacritic c)) (normalize filename))).

(** The decimal digits of a natural number, as a template literal prints an
    integer. *)
Definition digits (n : N) : JSString :=
  lit (DecimalString.NilZero.string_of_uint (N.to_uint n)).

(** [`${n}`] for an integer [n] below 10^21 in absolute value. *)
Definition decimal (n : Z) : JSString :=
  if (n <? 0)%Z then lit "-" ++ digits (Z.to_N (- n)) else digits (Z.to_N n).

(** [keyof typeof STORAGE_BUCKETS] and the bucket names. *)
Inductive Bucket : Set := MP3.

Definition STORAGE_BUCKETS (b : Bucket) : JSString :=
  match b with MP3 => lit "mp3-files" end.

(** What [uploadFile] reads of a [File]. *)
Record File : Type := mkFile {
  file_name : JSString;
  file_type : JSString
}.

(** The lines [uploadFile] writes to the console. *)
Inductive UploadLog (E : Type) : Type :=
| log_uploading (fileName fileType : JSString)
| log_upload_error (error : E).

Arguments log_uploading {E} fileName fileType.
Arguments log_upload_error {E} error.

(** [const fileName = `${timestamp}-${sanitizedName}`] *)
Definition upload_fileName (normalize : JSString -> JSString)
    (timestamp : Z) (file : File) : JSString :=
  let sanitizedName := sanitizeFilename normalize (file_name file) in
  decimal timestamp ++ lit "-" ++ sanitizedName.

(** [async function uploadFile(file, bucket)].  The storage client is
    outside the repository: [upload bucketName fileName file] is the [error]
    of its answer ([None] for [null]) and [getPublicUrl bucketName fileName]
    the public URL it gives; [now] is what [Date.now()] returns.  The result
    is the console output and either the thrown error or the returned URL. *)
Definition uploadFile {E : Type}
    (normalize : JSString -> JSString)
    (upload : JSString -> JSString -> File -> option E)
    (getPublicUrl : JSString -> JSString -> JSString)
    (now : Z) (file : File) (bucket : Bucket)
  : list (UploadLog E) * (E + JSString) :=
  let timestamp := now in
  let fileName := upload_fileName normalize timestamp file in
  match upload (STORAGE_BUCKETS bucket) fileName file with
  | Some error =>
      ([ log_uploading fileName (file_type file); log_upload_error error ],
       inl error)
  | None =>
      ([ log_uploading fileName (file_type file) ],
       inr (getPublicUrl (STORAGE_BUCKETS bucket) fileName))
  end.

(** A code unit that may occur in a sanitized name. *)
Definition is_safe (c : Z) : bool := is_plain c || (c =? underscore)%Z.

(** No two underscores next to each other. *)
Fixpoint single_underscores (s : JSString) : Prop :=
  match s with
  | c :: ((c' :: _) as r) =>
      ~ (c = underscore /\ c' = underscore) /\ single_underscores r
  | _ => True
  end.

(** ** The redirect page: [app/game/page.tsx] *)

(** The path handed to [router.replace]; [gameId] is
    [searchParams.get('id')], [None] for [null].  An empty string is falsy. *)
Definition GameRedirect (gameId : option JSString) : JSString :=
  match gameId with
  | Some (c :: r) => lit "/game/" ++ c :: r
  | _ => lit "/"
  end.

(** A file name with spaces and brackets, and a normalization that changes
    nothing (as NFD on ASCII). *)
Definition sample_file : File :=
  {| file_name := lit "my  song (1).mp3"; file_type := lit "audio/mpeg" |}.

Definition no_normalization (s : JSString) : JSString := s.

(** A storage that accepts every upload, and one that refuses every upload
    with error code 409. *)
Definition storage_accepts (bucket fileName : JSString) (file : File)
  : option Z := None.

Definition storage_refuses (bucket fileName : JSString) (file : File)
  : option Z := Some 409%Z.

Definition public_url (bucket fileName : JSString) : JSString :=
  lit "https://storage.example/" ++ bucket ++ lit "/" ++ fileName.

(** ** The Input Judge in binary64

    The hit window has a strict boundary, and on which side of it an input
    falls is decided by the rounding of the program's own arithmetic.  For
    that question [handleKeyDown] is embedded once more, with its numbers as
    the IEEE 754 binary64 values they are in JavaScript. *)

Module Binary64.
#[local] Open Scope float_scope.
#[local] Set Warnings "-inexact-float".

Record Note : Type := mkNote {
  time : float;
  direction : option Direction;
  y : float
}.

(** The state [handleKeyDown] reads and writes. *)
Record State : Type := mkState {
  notes : list Note;
  isPlaying : bool;
  score : Z;
  startTimeRef : float
}.

Definition setNotes (f : list Note -> list Note) (s : State) : State :=
  {| notes := f (notes s); isPlaying := isPlaying s; score := score s;
     startTimeRef := startTimeRef s |}.

Definition setScore (f : Z -> Z) (s : State) : State :=
  {| notes := notes s; isPlaying := isPlaying s; score := f (score s);
     startTimeRef := startTimeRef s |}.

Definition hitWindow : float := 0.15.

(** [const currentTime = (Date.now() - startTimeRef.current) / 1000] *)
Definition keyCurrentTime (now : float) (s : State) : float :=
  (now - startTimeRef s) / 1000.

(** The predicate handed to [notes.findIndex]. *)
Definition isHit (keyCode : Z) (currentTime : float) (note : Note) : bool :=
  strict_eq (ARROW_KEYS keyCode) (direction note)
  && (abs (time note - currentTime) <? hitWindow).

(** [keyCode] is [e.keyCode]; [now] is what [Date.now()] returns. *)
Definition handleKeyDown (keyCode : Z) (now : float) (s : State) : State :=
  if negb (isPlaying s) then s
  else
    let currentTime := keyCurrentTime now s in
    let noteIndex := findIndex (isHit keyCode currentTime) (notes s) in
    if negb (noteIndex =? -1)%Z then
      setNotes (filter_indexed (fun _ i => negb (i =? noteIndex)%Z))
        (setScore (fun prev => (prev + 100)%Z) s)
    else s.

(** The state after a registered hit that leaves the notes [rest]. *)
Definition hit_state (rest : list Note) (s : State) : State :=
  setNotes (fun _ => rest) (setScore (fun prev => (prev + 100)%Z) s).




(** A session in progress with one pending Up note at 2.0 s, the start
    latched at 1000 ms. *)
Definition session_up : State :=
  {| notes := [ mkNote 2 (Some UP) 350 ];
     isPlaying := true; score := 0%Z; startTimeRef := 1000 |}.


End Binary64.

(** * Properties *)

(** Division of milliseconds by the constant 1000, in the form [lra] reads. *)
Ltac ms_to_s := unfold Qdiv in *; change (/ 1000) with (1 # 1000) in *.


(** ** Facts about the array helpers *)

Section ArrayFacts.
Context {A : Type}.
Implicit Types (p : A -> bool) (l : list A) (i : Z).

Lemma findIndex_from_none p l i :
  (forall x, In x l -> p x = false) -> findIndex_from p l i = (-1)%Z.
Proof.
  revert i; induction l as [|a l IH]; intros i Hall; simpl.
  - reflexivity.
  - rewrite (Hall a (or_introl eq_refl)).
    apply IH. intros x Hx. apply Hall. now right.
Qed.

Lemma findIndex_from_first p l1 x l2 i :
  (forall z, In z l1 -> p z = false) -> p x = true ->
  findIndex_from p (l1 ++ x :: l2) i = (i + Z.of_nat (length l1))%Z.
Proof.
  revert i; induction l1 as [|a l1 IH]; intros i Hpre Hx; simpl.
  - rewrite Hx. lia.
  - rewrite (Hpre a (or_introl eq_refl)).
    rewrite IH; [lia | | assumption].
    intros z Hz. apply Hpre. now right.
Qed.

(** Every list either has no element satisfying [p], or splits at the
    first one. *)
Lemma first_split p l :
  (forall x, In x l -> p x = false) \/
  (exists l1 x l2,
      l = l1 ++ x :: l2 /\ (forall z, In z l1 -> p z = false) /\ p x = true).
Proof.
  induction l as [|a l IH].
  - left. intros x [].
  - destruct (p a) eqn:Ha.
    + right. exists [], a, l. repeat split; [intros z [] | assumption].
    + destruct IH as [Hnone | (l1 & x & l2 & -> & Hpre & Hx)].
      * left. intros x [<- | Hx]; [assumption | now apply Hnone].
      * right. exists (a :: l1), x, l2. repeat split; [| assumption].
        intros z [<- | Hz]; [assumption | now apply Hpre].
Qed.

Lemma filter_from_keep l i k :
  (k < i)%Z ->
  filter_from (fun (_ : A) j => negb (j =? k)%Z) l i = l.
Proof.
  revert i; induction l as [|a l IH]; intros i Hlt; simpl.
  - reflexivity.
  - destruct (Z.eqb_spec i k) as [->|_]; [lia|]. simpl.
    f_equal. apply IH. lia.
Qed.

Lemma filter_from_drop l1 x l2 i :
  filter_from (fun (_ : A) j => negb (j =? i + Z.of_nat (length l1))%Z)
    (l1 ++ x :: l2) i = l1 ++ l2.
Proof.
  revert i; induction l1 as [|a l1 IH]; intros i; simpl.
  - rewrite Z.add_0_r, Z.eqb_refl. simpl. apply filter_from_keep. lia.
  - destruct (Z.eqb_spec i (i + Z.pos (Pos.of_succ_nat (length l1))))
      as [E|_]; [lia|]. simpl.
    f_equal. specialize (IH (i + 1)%Z).
    replace (i + Z.pos (Pos.of_succ_nat (length l1)))%Z
      with (i + 1 + Z.of_nat (length l1))%Z by lia.
    exact IH.
Qed.

(** Splitting a list at position [i]. *)
Lemma nth_error_split_at l (n : nat) x :
  nth_error l n = Some x ->
  l = firstn n l ++ x :: skipn (S n) l /\ length (firstn n l) = n.
Proof.
  revert n; induction l as [|a l IH]; intros [|n] H; simpl in *;
    try discriminate.
  - injection H as ->. now split.
  - destruct (IH n H) as [E L]. split; [now rewrite <- E | now rewrite L].
Qed.

Lemma In_firstn_nth l (n : nat) z :
  In z (firstn n l) ->
  exists j, (j < n)%nat /\ nth_error l j = Some z.
Proof.
  revert n; induction l as [|a l IH]; intros [|n] H; simpl in *;
    try contradiction.
  destruct H as [<- | H].
  - exists 0%nat. split; [lia | reflexivity].
  - destruct (IH n H) as (j & Hj & E). exists (S j). split; [lia | exact E].
Qed.
End ArrayFacts.

Lemma Qltb_lt (x y : Q) : Qltb x y = true <-> x < y.
Proof.
  unfold Qltb. rewrite negb_true_iff, <- not_true_iff_false, Qle_bool_iff.
  split; [apply Qnot_le_lt | apply Qlt_not_le].
Qed.

Lemma strict_eq_eq (a b : option Direction) : strict_eq a b = true <-> a = b.
Proof.
  destruct a as [[]|], b as [[]|]; simpl; split; congruence.
Qed.

Lemma ARROW_KEYS_None (k : Z) :
  ARROW_KEYS k = None <-> (k <> 37 /\ k <> 38 /\ k <> 39 /\ k <> 40)%Z.
Proof.
  split.
  - intros H. repeat split; intros ->; discriminate H.
  - intros (H37 & H38 & H39 & H40).
    destruct k as [|p|p]; try reflexivity.
    do 6 (destruct p as [p|p|]; try reflexivity); congruence.
Qed.

(** ** [handleKeyDown] *)

Lemma isHit_qualifies keyCode elapsed n :
  isHit keyCode elapsed n = true <-> qualifies keyCode elapsed n.
Proof.
  unfold isHit, qualifies, hitWindow.
  rewrite andb_true_iff, strict_eq_eq, Qltb_lt. tauto.
Qed.

Lemma isHit_not_qualifies keyCode elapsed n :
  isHit keyCode elapsed n = false <-> ~ qualifies keyCode elapsed n.
Proof.
  rewrite <- isHit_qualifies. destruct (isHit keyCode elapsed n); split;
    congruence.
Qed.

Lemma handleKeyDown_idle keyCode now s :
  isPlaying s = false -> handleKeyDown keyCode now s = s.
Proof. intros H. unfold handleKeyDown. now rewrite H. Qed.

Lemma handleKeyDown_miss keyCode now s :
  isPlaying s = true ->
  (forall n, In n (notes s) -> ~ qualifies keyCode (keyCurrentTime now s) n) ->
  handleKeyDown keyCode now s = s.
Proof.
  intros Hp Hnone. unfold handleKeyDown, findIndex. rewrite Hp. simpl.
  rewrite findIndex_from_none; [reflexivity|].
  intros x Hx. apply isHit_not_qualifies. now apply Hnone.
Qed.

Lemma handleKeyDown_hit keyCode now s l1 n l2 :
  isPlaying s = true ->
  notes s = l1 ++ n :: l2 ->
  (forall m, In m l1 -> ~ qualifies keyCode (keyCurrentTime now s) m) ->
  qualifies keyCode (keyCurrentTime now s) n ->
  handleKeyDown keyCode now s = hit_state (l1 ++ l2) s.
Proof.
  intros Hp Hsplit Hpre Hn. unfold handleKeyDown, findIndex. rewrite Hp. simpl.
  rewrite Hsplit.
  rewrite findIndex_from_first;
    [| intros z Hz; apply isHit_not_qualifies; now apply Hpre
     | now apply isHit_qualifies].
  destruct (Z.eqb_spec (0 + Z.of_nat (length l1)) (-1)) as [E|_]; [lia|].
  pose proof (filter_from_drop l1 n l2 0) as Hdrop.
  simpl in *. unfold hit_state, setNotes, filter_indexed. simpl.
  rewrite Hsplit, Hdrop. reflexivity.
Qed.

(** The two outcomes of a key event while playing. *)
Lemma handleKeyDown_cases keyCode now s :
  isPlaying s = true ->
  ((forall n, In n (notes s) -> ~ qualifies keyCode (keyCurrentTime now s) n)
   /\ handleKeyDown keyCode now s = s)
  \/
  (exists l1 n l2,
      notes s = l1 ++ n :: l2
      /\ (forall m, In m l1 -> ~ qualifies keyCode (keyCurrentTime now s) m)
      /\ qualifies keyCode (keyCurrentTime now s) n
      /\ handleKeyDown keyCode now s = hit_state (l1 ++ l2) s).
Proof.
  intros Hp.
  destruct (first_split (isHit keyCode (keyCurrentTime now s)) (notes s))
    as [Hnone | (l1 & n & l2 & Hsplit & Hpre & Hn)].
  - left. assert (Hq : forall n, In n (notes s) ->
                      ~ qualifies keyCode (keyCurrentTime now s) n).
    { intros n Hin. apply isHit_not_qualifies. now apply Hnone. }
    split; [exact Hq | now apply handleKeyDown_miss].
  - right. exists l1, n, l2.
    assert (Hq : forall m, In m l1 ->
                   ~ qualifies keyCode (keyCurrentTime now s) m).
    { intros m Hin. apply isHit_not_qualifies. now apply Hpre. }
    apply isHit_qualifies in Hn.
    repeat split; try assumption; try apply Hn.
    now apply handleKeyDown_hit with (n := n).
Qed.

(** C4. A key event of an active session removes exactly the first
    qualifying note of the list (lowest index), adds exactly 100 to the score
    and leaves every other note and field as it was; when no note qualifies
    the state is unchanged; when no session is active the event changes
    nothing. *)
Theorem handleKeyDown_first_match (keyCode now : Z) (s : State) :
  (isPlaying s = false -> handleKeyDown keyCode now s = s)
  /\ (isPlaying s = true ->
      (forall n, In n (notes s) ->
                 ~ qualifies keyCode (keyCurrentTime now s) n) ->
      handleKeyDown keyCode now s = s)
  /\ (isPlaying s = true ->
      forall (i : nat) (n : Note),
        nth_error (notes s) i = Some n ->
        qualifies keyCode (keyCurrentTime now s) n ->
        (forall j m, (j < i)%nat -> nth_error (notes s) j = Some m ->
                     ~ qualifies keyCode (keyCurrentTime now s) m) ->
        let s' := handleKeyDown keyCode now s in
        score s' = (score s + 100)%Z
        /\ notes s' = firstn i (notes s) ++ skipn (S i) (notes s)
        /\ s' = hit_state (firstn i (notes s) ++ skipn (S i) (notes s)) s).
Proof.
  split; [apply handleKeyDown_idle|].
  split; [apply handleKeyDown_miss|].
  intros Hp i n Hi Hn Hpre s'.
  destruct (nth_error_split_at _ _ _ Hi) as [Hsplit Hlen].
  assert (E : s' = hit_state (firstn i (notes s) ++ skipn (S i) (notes s)) s).
  { subst s'. apply handleKeyDown_hit with (n := n); try assumption.
    intros m Hm. destruct (In_firstn_nth _ _ _ Hm) as (j & Hj & Hjm).
    now apply (Hpre j m). }
  rewrite E. repeat split.
Qed.

Lemma handleKeyDown_first_match_witness :
  handleKeyDown 38 3050 session_idle = session_idle
  /\ handleKeyDown 40 3050 session_three = session_three
  /\ notes (handleKeyDown 38 3050 session_three)
     = [ mkNote 2 (Some LEFT) 350; mkNote 2.05 (Some UP) 360 ]
  /\ score (handleKeyDown 38 3050 session_three) = 300%Z.
Proof.
  destruct (handleKeyDown_first_match 38 3050 session_idle) as [Hidle _].
  destruct (handleKeyDown_first_match 40 3050 session_three)
    as (_ & Hmiss & _).
  destruct (handleKeyDown_first_match 38 3050 session_three)
    as (_ & _ & Hhit).
  split; [apply Hidle; reflexivity|].
  split.
  { apply Hmiss; [reflexivity|].
    intros n [<-|[<-|[<-|[]]]] [Hdir _]; discriminate Hdir. }
  destruct (Hhit eq_refl 1%nat (mkNote 1.95 (Some UP) 340)) as (Hs & Hn & _).
  - reflexivity.
  - split; [reflexivity | vm_compute; reflexivity].
  - intros [|j] m Hj Hm; [|lia]. injection Hm as <-.
    intros [Hdir _]; discriminate Hdir.
  - split; [exact Hn | exact Hs].
Defined.

(** *** The hit window, in binary64 *)

Set Warnings "-inexact-float".












(** C10. In an active session, a note whose direction came from a pitch
    outside the table and a key code outside the table compare equal
    (undefined === undefined); if the note is within the hit window and no
    earlier note qualifies, the input scores 100 and removes that note. *)
Theorem unmapped_key_hits_unmapped_note (keyCode now pitch : Z) (s : State)
    (l1 : list Note) (n : Note) (l2 : list Note) :
  isPlaying s = true ->
  notes s = l1 ++ n :: l2 ->
  direction n = ARROW_KEYS pitch ->
  unmapped pitch ->
  unmapped keyCode ->
  Qabs (time n - keyCurrentTime now s) < 0.15 ->
  (forall m, In m l1 -> ~ qualifies keyCode (keyCurrentTime now s) m) ->
  strict_eq (ARROW_KEYS keyCode) (direction n) = true
  /\ score (handleKeyDown keyCode now s) = (score s + 100)%Z
  /\ notes (handleKeyDown keyCode now s) = l1 ++ l2.
Proof.
  intros Hp Hsplit Hdir Hpitch Hkey Hw Hpre.
  apply ARROW_KEYS_None in Hpitch, Hkey.
  assert (Hmatch : ARROW_KEYS keyCode = direction n) by congruence.
  split; [now apply strict_eq_eq|].
  rewrite (handleKeyDown_hit keyCode now s l1 n l2 Hp Hsplit Hpre
             (conj Hmatch Hw)).
  split; reflexivity.
Qed.

Lemma unmapped_key_hits_unmapped_note_witness :
  map direction (notes session_middle_c) = [ None ]
  /\ score (handleKeyDown 65 3000 session_middle_c) = 100%Z
  /\ notes (handleKeyDown 65 3000 session_middle_c) = [].
Proof.
  split; [reflexivity|].
  refine (proj2 (unmapped_key_hits_unmapped_note 65 3000 60 session_middle_c
                   [] _ [] _ _ _ _ _ _ _)).
  - reflexivity.
  - vm_compute; reflexivity.
  - reflexivity.
  - unfold unmapped; lia.
  - unfold unmapped; lia.
  - vm_compute; reflexivity.
  - intros m [].
Defined.

(** ** [loadMidi] *)

Lemma nth_error_map_toNote (evs : list MidiNote) (i : nat) (ev : MidiNote) :
  nth_error evs i = Some ev ->
  nth_error (map toNote evs) i = Some (toNote ev).
Proof.
  intros H. now rewrite nth_error_map, H.
Qed.

(** C8. For a parsed MIDI file with a first track, [loadMidi] stores one
    note per note event of that track, in order; each note has the event's
    start time, the direction found for the event's pitch in the table
    37 -> LEFT, 38 -> UP, 39 -> RIGHT, 40 -> DOWN, and an event with any other
    pitch still yields a note, whose direction is absent. *)
Theorem loadMidi_first_track (midi : Midi) (track0 : Track)
    (others : list Track) (s : State) :
  tracks midi = track0 :: others ->
  let loaded := notes (loadMidi (Parsed midi) s) in
  length loaded = length (track_notes track0)
  /\ (forall i ev,
         nth_error (track_notes track0) i = Some ev ->
         exists n,
           nth_error loaded i = Some n
           /\ time n = ev_time ev
           /\ direction n = ARROW_KEYS (ev_midi ev)
           /\ (unmapped (ev_midi ev) -> direction n = None))
  /\ (ARROW_KEYS 37 = Some LEFT /\ ARROW_KEYS 38 = Some UP
      /\ ARROW_KEYS 39 = Some RIGHT /\ ARROW_KEYS 40 = Some DOWN
      /\ forall k, unmapped k <-> ARROW_KEYS k = None).
Proof.
  intros Ht loaded.
  assert (E : loaded = map toNote (track_notes track0)).
  { subst loaded. unfold loadMidi, loadMidi_try. now rewrite Ht. }
  rewrite E. split; [apply length_map|]. split.
  - intros i ev Hev. exists (toNote ev).
    split; [now apply nth_error_map_toNote|].
    repeat split. intros Hu. now apply ARROW_KEYS_None.
  - do 4 (split; [reflexivity|]). intros k. symmetry. apply ARROW_KEYS_None.
Qed.

Lemma loadMidi_first_track_witness :
  map direction (notes (loadMidi (Parsed midi_two_tracks) mount))
  = [ Some LEFT; None; Some DOWN ]
  /\ length (notes (loadMidi (Parsed midi_two_tracks) mount)) = 3%nat
  /\ exists n,
      nth_error (notes (loadMidi (Parsed midi_two_tracks) mount)) 1 = Some n
      /\ time n = 1 /\ direction n = None.
Proof.
  split; [reflexivity|].
  destruct (loadMidi_first_track midi_two_tracks
              {| track_notes := [ {| ev_time := 0.5; ev_midi := 37 |};
                                  {| ev_time := 1; ev_midi := 60 |};
                                  {| ev_time := 1.5; ev_midi := 40 |} ] |}
              [ {| track_notes := [ {| ev_time := 9; ev_midi := 38 |} ] |} ]
              mount eq_refl) as (Hlen & Hnth & _).
  split; [exact Hlen|].
  destruct (Hnth 1%nat {| ev_time := 1; ev_midi := 60 |} eq_refl)
    as (n & Hn & Ht & _ & Hnone).
  exists n. repeat split; try assumption.
  apply Hnone. unfold unmapped; simpl; lia.
Defined.

Lemma loadMidi_caught (o : LoadOutcome) (e : Thrown) (s : State) :
  loadMidi_try o = inl e -> loadMidi o s = console_error e s.
Proof. intros H. unfold loadMidi. now rewrite H. Qed.

(** While the note list is empty and no load succeeds, every event keeps it
    empty and the score where it was. *)
Lemma dispatch_keeps_empty (e : Event) (s : State) :
  no_load_succeeds [e] = true ->
  notes s = [] ->
  notes (dispatch e s) = [] /\ score (dispatch e s) = score s
  \/ e = StartPressed /\ notes (dispatch e s) = [].
Proof.
  intros Hok Hs. destruct e as [o | | keyCode now | timestamp canvas]; simpl.
  - left. simpl in Hok. unfold load_failed in Hok. unfold loadMidi.
    destruct (loadMidi_try o); [now split | discriminate].
  - right. now split.
  - left. destruct (isPlaying s) eqn:Hp.
    + rewrite handleKeyDown_miss; [now split | assumption |].
      rewrite Hs. intros n [].
    + rewrite handleKeyDown_idle; [now split | assumption].
  - left. destruct (isPlaying s); [|now split].
    simpl. rewrite Hs. now split.
Qed.

Lemma run_keeps_empty (es : list Event) (s : State) :
  no_load_succeeds es = true ->
  notes s = [] -> score s = 0%Z ->
  notes (run es s) = [] /\ score (run es s) = 0%Z.
Proof.
  revert s; induction es as [|e es IH]; intros s Hok Hn Hs; simpl.
  - now split.
  - simpl in Hok. apply andb_true_iff in Hok. destruct Hok as [He Hes].
    assert (He' : no_load_succeeds [e] = true) by (simpl; now rewrite He).
    destruct (dispatch_keeps_empty e s He' Hn) as [[Hn' Hs'] | [-> Hn']].
    + apply IH; [assumption | assumption | congruence].
    + apply IH; [assumption | assumption | reflexivity].
Qed.

(** The claim of C7 fails for a load that fails after an earlier one has
    succeeded (the effect runs again whenever [midiUrl] changes): the error
    is logged and the notes of the earlier track stay in place. *)
Lemma failed_reload_keeps_notes :
  loadMidi_try FetchFails = inl NetworkError
  /\ notes (run [ LoadSettled (Parsed midi_up); LoadSettled FetchFails ] mount)
     = [ mkNote 2 (Some UP) (-100) ]
  /\ notes (run [ LoadSettled (Parsed midi_up); LoadSettled FetchFails ] mount)
     <> []
  /\ console (run [ LoadSettled (Parsed midi_up); LoadSettled FetchFails ]
                mount)
     = [ NetworkError ].
Proof.
  repeat split. discriminate.
Qed.

(** C7, amended. When the fetch or the parse fails, [loadMidi] catches the
    error: it returns a state in which the error is logged and nothing else
    has changed, so the note list is left exactly as it was.  It is empty
    when no earlier load has succeeded: on the mounted component the note
    list is empty after the failure, and the game stays playable with zero
    notes: Start activates the session, and whatever events follow (with no
    load that succeeds) the note list stays empty and the score 0. *)
Theorem loadMidi_failure_empty (o : LoadOutcome) (e : Thrown) :
  loadMidi_try o = inl e ->
  (forall s, loadMidi o s = console_error e s)
  /\ (forall s, notes (loadMidi o s) = notes s
                /\ console (loadMidi o s) = e :: console s)
  /\ console (loadMidi o mount) = [ e ]
  /\ notes (loadMidi o mount) = []
  /\ isPlaying (handleStart (loadMidi o mount)) = true
  /\ (forall es, no_load_succeeds es = true ->
                 notes (run es (loadMidi o mount)) = []
                 /\ score (run es (loadMidi o mount)) = 0%Z).
Proof.
  intros H.
  split; [intros s; now apply loadMidi_caught|].
  split; [intros s; rewrite (loadMidi_caught o e s H); now split|].
  rewrite (loadMidi_caught o e mount H).
  repeat split; try reflexivity;
    apply (run_keeps_empty es (console_error e mount)); auto.
Qed.

Lemma loadMidi_failure_empty_witness :
  loadMidi FetchFails mount = console_error NetworkError mount
  /\ loadMidi ParseFails mount = console_error ParseError mount
  /\ notes (loadMidi FetchFails session_three) = notes session_three
  /\ notes (run [ StartPressed; AnimationFrame 1000 canvas_800x600;
                  KeyDown 37 3000 ] (loadMidi ParseFails mount)) = [].
Proof.
  destruct (loadMidi_failure_empty FetchFails NetworkError eq_refl)
    as (Hfetch & Hkeep & _).
  destruct (loadMidi_failure_empty ParseFails ParseError eq_refl)
    as (Hparse & _ & _ & _ & _ & Hrun).
  split; [apply Hfetch|]. split; [apply Hparse|].
  split; [apply Hkeep|].
  apply Hrun. reflexivity.
Defined.

(** ** [gameLoop] *)

Lemma gameLoop_notes (timestamp : Q) (canvas : Canvas) (s : State) :
  notes (gameLoop timestamp canvas s)
  = map (reposition (frameCurrentTime timestamp s) canvas) (notes s).
Proof. reflexivity. Qed.

Lemma hit_line_reached (t e h : Q) :
  (t - e) * speed + h - 50 == h - 50 <-> e == t.
Proof.
  unfold speed. split; intros H.
  - assert (H' : (t - e) * 200 == 0) by lra. lra.
  - rewrite H. lra.
Qed.

(** C5. A frame recomputes the vertical position of every note as
    (note.time - elapsed) * 200 + canvasHeight - 50, elapsed being the
    frame's time in seconds since the latched start; the position equals
    canvasHeight - 50 exactly when elapsed equals the note's time; and the
    canvas width plays no part. *)
Theorem gameLoop_vertical_position (timestamp : Q) (canvas : Canvas)
    (s : State) :
  let elapsed := frameCurrentTime timestamp s in
  let s' := gameLoop timestamp canvas s in
  length (notes s') = length (notes s)
  /\ (forall i n,
         nth_error (notes s) i = Some n ->
         exists n',
           nth_error (notes s') i = Some n'
           /\ time n' = time n
           /\ direction n' = direction n
           /\ y n' = (time n - elapsed) * 200 + inject_Z (height canvas) - 50
           /\ (y n' == inject_Z (height canvas) - 50 <-> elapsed == time n))
  /\ (forall w,
         gameLoop timestamp {| width := w; height := height canvas |} s = s').
Proof.
  intros elapsed s'. subst s'. rewrite gameLoop_notes.
  split; [apply length_map|]. split.
  - intros i n Hn. exists (reposition elapsed canvas n).
    split; [now rewrite nth_error_map, Hn|].
    do 3 (split; [reflexivity|]). simpl. apply hit_line_reached.
  - reflexivity.
Qed.

Lemma gameLoop_vertical_position_witness :
  exists n',
    nth_error (notes (gameLoop 3000 canvas_800x600 session_up)) 0 = Some n'
    /\ y n' == 550.
Proof.
  destruct (gameLoop_vertical_position 3000 canvas_800x600 session_up)
    as (_ & Hnth & _).
  destruct (Hnth 0%nat (mkNote 2 (Some UP) 350) eq_refl)
    as (n' & Hn' & _ & _ & _ & Hline).
  exists n'. split; [exact Hn'|].
  change 550 with (inject_Z (height canvas_800x600) - 50).
  apply Hline. vm_compute. reflexivity.
Defined.

(** Frames never add or remove a note, nor change a time or a direction. *)
Lemma gameLoop_keeps_notes (timestamp : Q) (canvas : Canvas) (s : State) :
  map time (notes (gameLoop timestamp canvas s)) = map time (notes s)
  /\ map direction (notes (gameLoop timestamp canvas s))
     = map direction (notes s).
Proof.
  rewrite gameLoop_notes, !map_map. split; reflexivity.
Qed.

Lemma latch_later_frame (t0 t : Q) (s : State) :
  ~ startTimeRef s == 0 -> latch t s = startTimeRef s.
Proof.
  intros H. unfold latch.
  destruct (Qeq_bool (startTimeRef s) 0) eqn:E; [|reflexivity].
  apply Qeq_bool_iff in E. contradiction.
Qed.

(** The claim of C9 fails on a canvas 600 pixels high: one second after its
    time the missed Left note is at y = 350, which is not negative. *)
Lemma missed_note_not_negative :
  exists n,
    notes (session_missed canvas_800x600 1000) = [ n ]
    /\ direction n = Some LEFT
    /\ y n == 350
    /\ ~ y n < 0.
Proof.
  eexists. split; [vm_compute; reflexivity|].
  split; [reflexivity|]. split; [reflexivity|].
  intros H. vm_compute in H. discriminate H.
Qed.

(** C9, amended. With one Left note at 5.0 s and no input, at elapsed 6.0
    the note is still the single active note and its vertical position is
    canvasHeight - 250, that is 200 pixels above the hit line at
    canvasHeight - 50; it is negative exactly when the canvas is less than
    250 pixels high.  No frame ever removes a note. *)
Theorem missed_note_above_hit_line (canvas : Canvas) (t0 : Q) :
  ~ t0 == 0 ->
  (exists n,
      notes (session_missed canvas t0) = [ n ]
      /\ time n = 5
      /\ direction n = Some LEFT
      /\ y n == inject_Z (height canvas) - 250
      /\ y n == (inject_Z (height canvas) - 50) - 200
      /\ (y n < 0 <-> (height canvas < 250)%Z))
  /\ frameCurrentTime (t0 + 6000)
       (run [ LoadSettled (Parsed midi_left); StartPressed;
              AnimationFrame t0 canvas ] mount) == 6
  /\ (forall timestamp c s,
         map time (notes (gameLoop timestamp c s)) = map time (notes s)
         /\ map direction (notes (gameLoop timestamp c s))
            = map direction (notes s)).
Proof.
  intros Ht0.
  assert (Hstart : startTimeRef
                     (run [ LoadSettled (Parsed midi_left); StartPressed;
                            AnimationFrame t0 canvas ] mount) = t0).
  { reflexivity. }
  assert (Hel : frameCurrentTime (t0 + 6000)
                  (run [ LoadSettled (Parsed midi_left); StartPressed;
                         AnimationFrame t0 canvas ] mount) == 6).
  { unfold frameCurrentTime.
    rewrite (latch_later_frame t0) by (rewrite Hstart; exact Ht0).
    rewrite Hstart. field. }
  split; [| split; [exact Hel | apply gameLoop_keeps_notes]].
  eexists. split; [reflexivity|]. simpl time. simpl direction. simpl y.
  split; [reflexivity|]. split; [reflexivity|].
  assert (Hy : (5 - frameCurrentTime (t0 + 6000)
                      (run [ LoadSettled (Parsed midi_left); StartPressed;
                             AnimationFrame t0 canvas ] mount)) * speed
               + inject_Z (height canvas) - 50
               == inject_Z (height canvas) - 250).
  { rewrite Hel. unfold speed. ring. }
  split; [exact Hy|]. split; [rewrite Hy; ring|].
  rewrite Hy. split; intros H.
  - apply Z.lt_nge. intros Hge.
    assert (250 <= inject_Z (height canvas)).
    { change 250 with (inject_Z 250). now rewrite <- Zle_Qle. }
    lra.
  - assert (inject_Z (height canvas) < 250).
    { change 250 with (inject_Z 250). now rewrite <- Zlt_Qlt. }
    lra.
Qed.

Lemma missed_note_above_hit_line_witness :
  exists n,
    notes (session_missed canvas_800x600 1000) = [ n ]
    /\ time n = 5
    /\ y n == 350.
Proof.
  assert (H1000 : ~ 1000 == 0) by (intros H; discriminate H).
  destruct (missed_note_above_hit_line canvas_800x600 1000 H1000)
    as ((n & Hn & Ht & _ & Hy & _) & _).
  exists n. split; [exact Hn|]. split; [exact Ht|].
  rewrite Hy. reflexivity.
Defined.

(** ** [handleStart] *)

(** The claim of C1 fails after a hit: the parsed track has one note, the
    note was hit, and Start leaves the active list empty. *)
Lemma handleStart_does_not_restore :
  notes (loadMidi (Parsed midi_up) mount) = [ mkNote 2 (Some UP) (-100) ]
  /\ score session_after_hit = 100%Z
  /\ notes session_after_hit = []
  /\ score (handleStart session_after_hit) = 0%Z
  /\ notes (handleStart session_after_hit) = []
  /\ notes (handleStart (handleStart session_after_hit))
     <> notes (loadMidi (Parsed midi_up) mount).
Proof.
  repeat split; try reflexivity. discriminate.
Qed.

(** C1, amended. Start sets the score to 0, activates the session, clears
    the start timestamp and restarts the audio from position zero; it leaves
    the active note list exactly as it was, so notes removed by earlier hits
    stay removed.  Pressing Start twice in succession gives the same state as
    pressing it once. *)
Theorem handleStart_resets_score_keeps_notes (s : State) :
  score (handleStart s) = 0%Z
  /\ notes (handleStart s) = notes s
  /\ isPlaying (handleStart s) = true
  /\ startTimeRef (handleStart s) = 0
  /\ audioCurrentTime (handleStart s) = 0
  /\ audioPlaying (handleStart s) = true
  /\ console (handleStart s) = console s
  /\ handleStart (handleStart s) = handleStart s
  /\ run [ StartPressed; StartPressed ] s = run [ StartPressed ] s.
Proof.
  repeat split.
Qed.

(** ** The score *)

Lemma reachable_run (es : list Event) (s : State) :
  reachable s -> reachable (run es s).
Proof.
  revert s; induction es as [|e es IH]; intros s Hs; simpl.
  - exact Hs.
  - apply IH. now constructor.
Qed.

(** What one event does to the score. *)
Lemma dispatch_score (e : Event) (s : State) :
  (e = StartPressed /\ score (dispatch e s) = 0%Z)
  \/ score (dispatch e s) = score s
  \/ ((exists keyCode now, e = KeyDown keyCode now)
      /\ isPlaying s = true
      /\ score (dispatch e s) = (score s + 100)%Z).
Proof.
  destruct e as [o | | keyCode now | timestamp canvas]; simpl.
  - right; left. unfold loadMidi. now destruct (loadMidi_try o).
  - left. now split.
  - destruct (isPlaying s) eqn:Hp.
    + destruct (handleKeyDown_cases keyCode now s Hp)
        as [[_ E] | (l1 & n & l2 & _ & _ & _ & E)]; rewrite E.
      * right; left. reflexivity.
      * right; right. split; [now exists keyCode, now | now split].
    + right; left. now rewrite handleKeyDown_idle.
  - right; left. now destruct (isPlaying s).
Qed.

(** C6. In every reachable state the score is a multiple of 100 (and not
    negative); every event either is Start and resets the score to 0, or
    leaves the score as it was, or is a key event of an active session and
    adds exactly 100; so within a session, between two Starts, the score
    never decreases. *)
Theorem score_multiple_of_100 :
  (forall s, reachable s -> (score s mod 100 = 0)%Z /\ (0 <= score s)%Z)
  /\ (forall e s,
         (e = StartPressed /\ score (dispatch e s) = 0%Z)
         \/ score (dispatch e s) = score s
         \/ ((exists keyCode now, e = KeyDown keyCode now)
             /\ isPlaying s = true
             /\ score (dispatch e s) = (score s + 100)%Z))
  /\ (forall e s, e <> StartPressed -> (score s <= score (dispatch e s))%Z)
  /\ (forall es s,
         ~ In StartPressed es -> (score s <= score (run es s))%Z).
Proof.
  assert (Hstep : forall e s, e <> StartPressed ->
                              (score s <= score (dispatch e s))%Z).
  { intros e s Hne.
    destruct (dispatch_score e s) as [[He _] | [E | (_ & _ & E)]];
      [contradiction | lia | lia]. }
  split; [| split; [exact dispatch_score | split; [exact Hstep|]]].
  - intros s Hs. induction Hs as [|e s Hs [IHmod IHpos]].
    + split; [reflexivity | simpl; lia].
    + destruct (dispatch_score e s) as [[_ E] | [E | (_ & _ & E)]];
        rewrite E.
      * split; [reflexivity | lia].
      * now split.
      * split; [| lia].
        replace (score s + 100)%Z with (score s + 1 * 100)%Z by lia.
        now rewrite Z.mod_add by lia.
  - intros es. induction es as [|e es IH]; intros s Hno; simpl.
    + lia.
    + assert (He : e <> StartPressed).
      { intros ->. apply Hno. now left. }
      assert (Hes : ~ In StartPressed es).
      { intros Hin. apply Hno. now right. }
      specialize (IH (dispatch e s) Hes). specialize (Hstep e s He). lia.
Qed.

Lemma score_multiple_of_100_witness :
  (score session_after_hit mod 100 = 0)%Z
  /\ (score session_up <= score (dispatch (KeyDown 38 3050) session_up))%Z.
Proof.
  destruct score_multiple_of_100 as (Hinv & _ & Hmono & _).
  split.
  - apply Hinv. unfold session_after_hit. apply reachable_run. constructor.
  - apply Hmono. discriminate.
Defined.

(** ** The two clocks *)

Lemma Date_now_bounds (timeOrigin : Z) (t : Q) :
  inject_Z timeOrigin + t - 1 < inject_Z (Date_now timeOrigin t)
  /\ inject_Z (Date_now timeOrigin t) <= inject_Z timeOrigin + t.
Proof.
  unfold Date_now. rewrite inject_Z_plus.
  pose proof (Qfloor_le t) as Hle. pose proof (Qlt_floor t) as Hlt.
  rewrite inject_Z_plus in Hlt. change (inject_Z 1) with 1 in Hlt.
  split; lra.
Qed.

(** At one and the same instant the time computed by [handleKeyDown] and the
    time computed by [gameLoop] differ on every page whose time origin lies
    after the epoch: [Date.now()] is read against a start latched from a
    frame timestamp. *)
Lemma key_clock_is_not_frame_clock (timeOrigin : Z) (t : Q) (s : State) :
  (1 <= timeOrigin)%Z -> 0 <= t ->
  ~ keyCurrentTime (Date_now timeOrigin t) s
    == frameCurrentTime (rafTimestamp t) s.
Proof.
  intros Ho Ht. unfold keyCurrentTime, frameCurrentTime, rafTimestamp, latch.
  destruct (Date_now_bounds timeOrigin t) as [Hlo _].
  assert (Ho' : 1 <= inject_Z timeOrigin).
  { change 1 with (inject_Z 1). now rewrite <- Zle_Qle. }
  destruct (Qeq_bool (startTimeRef s) 0) eqn:E; intros H.
  - apply Qeq_bool_iff in E. ms_to_s. lra.
  - ms_to_s. lra.
Qed.

(** X13. With these clocks a key event registers no hit on any note whose time is
    below the page's epoch offset. *)
Lemma platform_key_never_hits (timeOrigin keyCode : Z) (t : Q) (s : State) :
  isPlaying s = true ->
  startTimeRef s <= t ->
  (forall n, In n (notes s) ->
             time n + 0.15 <= (inject_Z timeOrigin - 1) / 1000) ->
  handleKeyDown keyCode (Date_now timeOrigin t) s = s.
Proof.
  intros Hp Hstart Hnotes. apply handleKeyDown_miss; [assumption|].
  intros n Hn [_ Hw]. specialize (Hnotes n Hn).
  apply Qabs_Qlt_condition in Hw. destruct Hw as [Hw _].
  destruct (Date_now_bounds timeOrigin t) as [Hlo _].
  unfold keyCurrentTime in Hw. ms_to_s. lra.
Qed.

(** C2 at a concrete instant. The first frame latched the start at 1000 ms
    after the time origin; 2000 ms later [gameLoop] computes 2 seconds, while
    [handleKeyDown], reading [Date.now()], computes 1 700 000 002 seconds,
    and an Up key at that instant misses the Up note due at 2.0 s. *)
Theorem clocks_disagree :
  startTimeRef session_latched = 1000
  /\ frameCurrentTime (rafTimestamp 3000) session_latched == 2
  /\ keyCurrentTime (Date_now page_timeOrigin 3000) session_latched
     == 1700000002
  /\ ~ keyCurrentTime (Date_now page_timeOrigin 3000) session_latched
       == frameCurrentTime (rafTimestamp 3000) session_latched
  /\ handleKeyDown 38 (Date_now page_timeOrigin 3000) session_up = session_up.
Proof.
  split; [reflexivity|]. split; [reflexivity|]. split; [reflexivity|].
  split.
  - apply key_clock_is_not_frame_clock; [unfold page_timeOrigin; lia|].
    intros H; discriminate H.
  - reflexivity.
Qed.

(** * Further properties of the component *)

(** ** Session activity *)

Lemma run_cons (e : Event) (es : list Event) (s : State) :
  run (e :: es) s = run es (dispatch e s).
Proof. reflexivity. Qed.

(** X1. Nothing ever clears [isPlaying]: after any events the session is active
    exactly when it was active before or Start is among the events. *)
Theorem session_active_iff_started (es : list Event) (s : State) :
  isPlaying (run es s) = isPlaying s || existsb is_start es.
Proof.
  revert s; induction es as [|e es IH]; intros s; simpl.
  - now rewrite orb_false_r.
  - rewrite IH. destruct e as [o | | keyCode now | timestamp canvas]; simpl.
    + unfold loadMidi. now destruct (loadMidi_try o).
    + now rewrite orb_true_r.
    + destruct (isPlaying s) eqn:Hp.
      * destruct (handleKeyDown_cases keyCode now s Hp)
          as [[_ E] | (l1 & n & l2 & _ & _ & _ & E)]; rewrite E; simpl;
          now rewrite Hp.
      * rewrite handleKeyDown_idle by assumption. now rewrite Hp.
    + destruct (isPlaying s) eqn:Hp; simpl; now rewrite Hp.
Qed.

(** X2. Before Start is pressed, key events and frames change nothing at all. *)
Theorem idle_ignores_keys_and_frames (es : list Event) (s : State) :
  isPlaying s = false ->
  forallb is_key_or_frame es = true ->
  run es s = s.
Proof.
  intros Hp. induction es as [|e es IH]; intros Hes; simpl.
  - reflexivity.
  - simpl in Hes. apply andb_true_iff in Hes. destruct Hes as [He Hes].
    destruct e as [o | | keyCode now | timestamp canvas]; try discriminate;
      simpl.
    + rewrite handleKeyDown_idle by assumption. now apply IH.
    + rewrite Hp. now apply IH.
Qed.

Lemma idle_ignores_keys_and_frames_witness :
  run [ KeyDown 38 3050; AnimationFrame 1000 canvas_800x600; KeyDown 37 3050 ]
    session_idle = session_idle.
Proof.
  apply idle_ignores_keys_and_frames; reflexivity.
Defined.

(** ** Hits and the note list *)

(** What one event does to the note list, as long as it is not a load that
    succeeds: it keeps the list up to vertical positions, or it is a hit
    that removes one note and adds 100. *)
Lemma dispatch_notes (e : Event) (s : State) :
  no_load_succeeds [e] = true ->
  (map note_key (notes (dispatch e s)) = map note_key (notes s)
   /\ (score (dispatch e s) = score s \/ e = StartPressed))
  \/ (exists l1 n l2,
         notes s = l1 ++ n :: l2
         /\ notes (dispatch e s) = l1 ++ l2
         /\ score (dispatch e s) = (score s + 100)%Z
         /\ is_start e = false).
Proof.
  intros Hok. destruct e as [o | | keyCode now | timestamp canvas]; simpl.
  - left. simpl in Hok. unfold load_failed in Hok. unfold loadMidi.
    destruct (loadMidi_try o); [ split; [reflexivity | now left]
                               | discriminate ].
  - left. split; [reflexivity | now right].
  - destruct (isPlaying s) eqn:Hp.
    + destruct (handleKeyDown_cases keyCode now s Hp)
        as [[_ E] | (l1 & n & l2 & Hsplit & _ & _ & E)]; rewrite E.
      * left. split; [reflexivity | now left].
      * right. exists l1, n, l2. repeat split. exact Hsplit.
    + left. rewrite handleKeyDown_idle by assumption.
      split; [reflexivity | now left].
  - left. destruct (isPlaying s); [| split; [reflexivity | now left]].
    split; [| now left]. rewrite gameLoop_notes, map_map. reflexivity.
Qed.

(** X3. Every hit removes one note and adds 100, and nothing else changes either
    quantity: over events with no Start and no successful load,
    score + 100 * (number of active notes) stays constant. *)
Theorem score_plus_pending_constant (es : list Event) (s : State) :
  existsb is_start es = false ->
  no_load_succeeds es = true ->
  (score (run es s) + 100 * Z.of_nat (length (notes (run es s))))%Z
  = (score s + 100 * Z.of_nat (length (notes s)))%Z.
Proof.
  revert s; induction es as [|e es IH]; intros s Hst Hld.
  - reflexivity.
  - simpl in Hst, Hld. apply orb_false_iff in Hst. destruct Hst as [Hst Hst'].
    apply andb_true_iff in Hld. destruct Hld as [Hld Hld'].
    rewrite run_cons, (IH _ Hst' Hld').
    assert (He : no_load_succeeds [e] = true) by (simpl; now rewrite Hld).
    destruct (dispatch_notes e s He)
      as [[Hk [Hs | ->]] | (l1 & n & l2 & Hsplit & Hn & Hs & _)].
    + apply (f_equal (@length _)) in Hk. rewrite !length_map in Hk.
      rewrite Hk, Hs. reflexivity.
    + discriminate Hst.
    + rewrite Hn, Hs, Hsplit, !length_app. cbn [length]. lia.
Qed.

Lemma score_plus_pending_constant_witness :
  (score (run [ AnimationFrame 3000 canvas_800x600; KeyDown 38 3050;
                KeyDown 38 3050; KeyDown 38 3050 ] session_three)
   = 200 + 100 * 3 - 100 * 1)%Z.
Proof.
  pose proof (score_plus_pending_constant
                [ AnimationFrame 3000 canvas_800x600; KeyDown 38 3050;
                  KeyDown 38 3050; KeyDown 38 3050 ] session_three
                eq_refl eq_refl) as H.
  change (length (notes session_three)) with 3%nat in H.
  change (score session_three) with 200%Z in H.
  change (length (notes (run [ AnimationFrame 3000 canvas_800x600;
                               KeyDown 38 3050; KeyDown 38 3050;
                               KeyDown 38 3050 ] session_three)))
    with 1%nat in H.
  lia.
Defined.

Lemma subseq_refl {A : Type} (l : list A) : subseq l l.
Proof. induction l; now constructor. Qed.

Lemma subseq_trans {A : Type} (l1 l2 l3 : list A) :
  subseq l1 l2 -> subseq l2 l3 -> subseq l1 l3.
Proof.
  intros H12 H23. revert l1 H12.
  induction H23 as [| x l2 l3 H23 IH | x l2 l3 H23 IH]; intros l1 H12.
  - exact H12.
  - constructor. now apply IH.
  - inversion H12 as [| y m1 m2 Hm | y m1 m2 Hm]; subst.
    + constructor. now apply IH.
    + apply subseq_keep. now apply IH.
Qed.

Lemma subseq_drop_one {A : Type} (l1 : list A) (x : A) (l2 : list A) :
  subseq (l1 ++ l2) (l1 ++ x :: l2).
Proof.
  induction l1 as [|a l1 IH]; simpl.
  - constructor. apply subseq_refl.
  - now apply subseq_keep.
Qed.

Lemma subseq_length {A : Type} (l1 l2 : list A) :
  subseq l1 l2 -> (length l1 <= length l2)%nat.
Proof. induction 1; simpl; lia. Qed.

(** X4. Without a load that succeeds, the active notes are always the earlier
    notes with some left out: no event adds a note, reorders notes, or
    changes a note's time or direction. *)
Theorem active_notes_subsequence (es : list Event) (s : State) :
  no_load_succeeds es = true ->
  subseq (map note_key (notes (run es s))) (map note_key (notes s)).
Proof.
  revert s; induction es as [|e es IH]; intros s Hld.
  - apply subseq_refl.
  - simpl in Hld. apply andb_true_iff in Hld. destruct Hld as [Hld Hld'].
    rewrite run_cons.
    apply subseq_trans with (l2 := map note_key (notes (dispatch e s)));
      [now apply IH|].
    assert (He : no_load_succeeds [e] = true) by (simpl; now rewrite Hld).
    destruct (dispatch_notes e s He)
      as [[Hk _] | (l1 & n & l2 & Hsplit & Hn & _ & _)].
    + rewrite Hk. apply subseq_refl.
    + rewrite Hn, Hsplit, !map_app. simpl. apply subseq_drop_one.
Qed.

Lemma active_notes_subsequence_witness :
  subseq
    (map note_key
       (notes (run [ StartPressed; AnimationFrame 3000 canvas_800x600;
                     KeyDown 38 3050 ] session_three)))
    [ (2, Some LEFT); (1.95, Some UP); (2.05, Some UP) ].
Proof.
  apply (active_notes_subsequence
           [ StartPressed; AnimationFrame 3000 canvas_800x600;
             KeyDown 38 3050 ] session_three).
  reflexivity.
Defined.

(** ** Repeated presses *)

Lemma filter_none {A : Type} (p : A -> bool) (l : list A) :
  (forall x, In x l -> p x = false) -> filter p l = [].
Proof.
  induction l as [|a l IH]; intros H; simpl; [reflexivity|].
  rewrite (H a (or_introl eq_refl)). apply IH.
  intros x Hx. apply H. now right.
Qed.

Lemma candidates_after_press (keyCode now : Z) (s : State) :
  isPlaying s = true ->
  candidates keyCode (keyCurrentTime now s)
    (notes (handleKeyDown keyCode now s))
  = tl (candidates keyCode (keyCurrentTime now s) (notes s))
  /\ score (handleKeyDown keyCode now s)
     = (score s
        + 100 * Z.of_nat
                  (Nat.min 1 (length (candidates keyCode
                                        (keyCurrentTime now s) (notes s)))))%Z
  /\ startTimeRef (handleKeyDown keyCode now s) = startTimeRef s
  /\ isPlaying (handleKeyDown keyCode now s) = true.
Proof.
  intros Hp. unfold candidates.
  destruct (handleKeyDown_cases keyCode now s Hp)
    as [[Hnone E] | (l1 & n & l2 & Hsplit & Hpre & Hn & E)]; rewrite E.
  - rewrite (filter_none (isHit keyCode (keyCurrentTime now s)) (notes s)).
    + simpl. repeat split; try assumption. lia.
    + intros x Hx. apply isHit_not_qualifies. now apply Hnone.
  - assert (Hf1 : filter (isHit keyCode (keyCurrentTime now s)) l1 = []).
    { apply filter_none. intros x Hx. apply isHit_not_qualifies.
      now apply Hpre. }
    apply isHit_qualifies in Hn.
    rewrite Hsplit. simpl notes. rewrite !filter_app, Hf1. simpl.
    rewrite Hn. simpl. repeat split; assumption.
Qed.

Lemma keyCurrentTime_same_start (now : Z) (s s' : State) :
  startTimeRef s' = startTimeRef s ->
  keyCurrentTime now s' = keyCurrentTime now s.
Proof. intros H. unfold keyCurrentTime. now rewrite H. Qed.

(** X5. Pressing the same key [k] times at one reading of the clock consumes the
    first [k] qualifying notes, one per press, and scores 100 for each: the
    score grows by 100 * min(k, number of qualifying notes). *)
Theorem repeated_presses (k : nat) (keyCode now : Z) (s : State) :
  isPlaying s = true ->
  let waiting := candidates keyCode (keyCurrentTime now s) (notes s) in
  score (press k keyCode now s)
  = (score s + 100 * Z.of_nat (Nat.min k (length waiting)))%Z
  /\ candidates keyCode (keyCurrentTime now s)
       (notes (press k keyCode now s))
     = skipn k waiting.
Proof.
  revert s; induction k as [|k IH]; intros s Hp waiting.
  - simpl. split; [lia | reflexivity].
  - destruct (candidates_after_press keyCode now s Hp)
      as (Hc & Hs & Hst & Hp').
    specialize (IH (handleKeyDown keyCode now s) Hp').
    rewrite (keyCurrentTime_same_start now s _ Hst) in IH.
    cbv zeta in IH. rewrite Hc, Hs in IH. fold waiting in IH.
    destruct IH as [IHs IHc].
    change (press (S k) keyCode now s)
      with (press k keyCode now (handleKeyDown keyCode now s)).
    rewrite IHs, IHc.
    destruct waiting as [|n w]; cbn [length tl].
    + rewrite !skipn_nil. split; [lia | reflexivity].
    + split; [lia | reflexivity].
Qed.

Lemma repeated_presses_witness :
  score (press 5 38 3050 session_three) = 400%Z
  /\ candidates 38 (keyCurrentTime 3050 session_three)
       (notes (press 5 38 3050 session_three)) = [].
Proof.
  destruct (repeated_presses 5 38 3050 session_three eq_refl) as [Hs Hc].
  split; [rewrite Hs; reflexivity | rewrite Hc; reflexivity].
Defined.

(** ** The touch controls *)

Lemma ARROW_KEYS_button (b : TouchButton) (now : Z) (s : State) :
  exists keyCode,
    ARROW_KEYS keyCode = Some (button_arrow b)
    /\ onTouchStart b now s = handleKeyDown keyCode now s.
Proof.
  destruct b; [exists 37%Z | exists 38%Z | exists 40%Z | exists 39%Z];
    split; reflexivity.
Qed.

(** X6. A touch on one of the four buttons either changes nothing or removes one
    note that carries the arrow shown on that button and lies within the hit
    window; a note without direction is never removed by a touch. *)
Theorem touch_hits_only_its_arrow (b : TouchButton) (now : Z) (s : State) :
  (onTouchStart b now s = s
   \/ exists l1 n l2,
       notes s = l1 ++ n :: l2
       /\ direction n = Some (button_arrow b)
       /\ Qabs (time n - keyCurrentTime now s) < 0.15
       /\ onTouchStart b now s = hit_state (l1 ++ l2) s)
  /\ undirected (notes (onTouchStart b now s)) = undirected (notes s).
Proof.
  destruct (ARROW_KEYS_button b now s) as (keyCode & Hk & ->).
  destruct (isPlaying s) eqn:Hp.
  - destruct (handleKeyDown_cases keyCode now s Hp)
      as [[_ E] | (l1 & n & l2 & Hsplit & _ & [Hdir Hw] & E)]; rewrite E.
    + split; [now left | reflexivity].
    + rewrite Hk in Hdir. split.
      * right. exists l1, n, l2. repeat split; try assumption. now symmetry.
      * simpl. unfold undirected. rewrite Hsplit, !filter_app. simpl.
        now rewrite <- Hdir.
  - rewrite handleKeyDown_idle by assumption. split; [now left | reflexivity].
Qed.

(** ** The frame clock *)

Lemma latch_latched (timestamp : Q) (s : State) :
  ~ startTimeRef s == 0 -> latch timestamp s = startTimeRef s.
Proof.
  intros H. unfold latch.
  destruct (Qeq_bool (startTimeRef s) 0) eqn:E; [|reflexivity].
  apply Qeq_bool_iff in E. contradiction.
Qed.

Lemma dispatch_keeps_start (e : Event) (s : State) :
  is_start e = false -> ~ startTimeRef s == 0 ->
  startTimeRef (dispatch e s) = startTimeRef s.
Proof.
  intros He Hs. destruct e as [o | | keyCode now | timestamp canvas];
    try discriminate; simpl.
  - unfold loadMidi. now destruct (loadMidi_try o).
  - destruct (isPlaying s) eqn:Hp.
    + now destruct (candidates_after_press keyCode now s Hp) as (_ & _ & E & _).
    + now rewrite handleKeyDown_idle.
  - destruct (isPlaying s); [|reflexivity]. simpl. now apply latch_latched.
Qed.

(** X7. Once a frame has latched the start timestamp, frames, key events and
    loads all leave it alone: only Start clears it. *)
Theorem start_latched_until_restart (es : list Event) (s : State) :
  existsb is_start es = false ->
  ~ startTimeRef s == 0 ->
  startTimeRef (run es s) = startTimeRef s.
Proof.
  revert s; induction es as [|e es IH]; intros s Hst Hs.
  - reflexivity.
  - simpl in Hst. apply orb_false_iff in Hst. destruct Hst as [He Hes].
    rewrite run_cons.
    pose proof (dispatch_keeps_start e s He Hs) as E.
    rewrite IH; [exact E | exact Hes | now rewrite E].
Qed.

Lemma start_latched_until_restart_witness :
  startTimeRef
    (run [ AnimationFrame 5000 canvas_800x600; KeyDown 38 3050;
           LoadSettled FetchFails; AnimationFrame 9000 canvas_800x600 ]
       session_three) = 1000.
Proof.
  apply (start_latched_until_restart
           [ AnimationFrame 5000 canvas_800x600; KeyDown 38 3050;
             LoadSettled FetchFails; AnimationFrame 9000 canvas_800x600 ]
           session_three); [reflexivity|].
  intros H; discriminate H.
Defined.

(** X8. Start restarts the frame clock whatever happened before: the first
    frame after Start latches its own timestamp and computes time 0, and a
    frame [d] milliseconds later computes d / 1000 seconds. *)
Theorem start_restarts_frame_clock (timestamp : Q) (canvas : Canvas)
    (s : State) :
  ~ timestamp == 0 ->
  let s1 := run [ StartPressed; AnimationFrame timestamp canvas ] s in
  startTimeRef s1 = timestamp
  /\ frameCurrentTime timestamp (handleStart s) == 0
  /\ forall d, frameCurrentTime (timestamp + d) s1 == d / 1000.
Proof.
  intros Hts s1.
  assert (Hstart : startTimeRef s1 = timestamp) by reflexivity.
  split; [exact Hstart|]. split.
  - unfold frameCurrentTime, latch. simpl. field.
  - intros d. unfold frameCurrentTime.
    rewrite latch_latched by (rewrite Hstart; exact Hts).
    rewrite Hstart. field.
Qed.

Lemma start_restarts_frame_clock_witness :
  frameCurrentTime (16 + 2500)
    (run [ StartPressed; AnimationFrame 16 canvas_800x600 ] session_after_hit)
  == 2.5.
Proof.
  assert (H16 : ~ 16 == 0) by (intros H; discriminate H).
  destruct (start_restarts_frame_clock 16 canvas_800x600 session_after_hit H16)
    as (_ & _ & H).
  rewrite H. reflexivity.
Defined.

(** X9. The check [!startTimeRef.current] cannot tell a latched 0 from an unset
    start: a first frame with timestamp 0 leaves the start unset, and the
    next frame, whatever its timestamp, computes time 0 again. *)
Theorem zero_timestamp_is_not_latched (canvas : Canvas) (later : Q)
    (s : State) :
  let s1 := run [ StartPressed; AnimationFrame 0 canvas ] s in
  startTimeRef s1 = 0
  /\ frameCurrentTime later s1 == 0
  /\ startTimeRef (gameLoop later canvas s1) = later.
Proof.
  simpl. repeat split. unfold frameCurrentTime, latch. simpl. field.
Qed.

Lemma gameLoop_after_gameLoop (t1 t2 : Q) (c1 c2 : Canvas) (s : State) :
  ~ startTimeRef s == 0 ->
  gameLoop t2 c2 (gameLoop t1 c1 s) = gameLoop t2 c2 s.
Proof.
  intros Hs. unfold gameLoop, frameCurrentTime.
  assert (E1 : startTimeRef
                 (setNotes (map (reposition ((t1 - latch t1 s) / 1000) c1))
                    (setStartTimeRef (latch t1 s) s)) = startTimeRef s).
  { simpl. now apply latch_latched. }
  assert (E2 : latch t2
                 (setNotes (map (reposition ((t1 - latch t1 s) / 1000) c1))
                    (setStartTimeRef (latch t1 s) s)) = latch t2 s).
  { unfold latch at 1. rewrite E1. reflexivity. }
  cbv zeta. rewrite E2. unfold setNotes, setStartTimeRef. simpl.
  rewrite map_map. reflexivity.
Qed.

(** X10. Vertical positions are derived, never accumulated: with the start
    latched, the state after any number of frames is the state the last
    frame alone would have produced. *)
Theorem last_frame_decides_positions (es : list Event) (timestamp : Q)
    (canvas : Canvas) (s : State) :
  isPlaying s = true ->
  ~ startTimeRef s == 0 ->
  forallb is_frame es = true ->
  run (es ++ [ AnimationFrame timestamp canvas ]) s
  = gameLoop timestamp canvas s.
Proof.
  revert s; induction es as [|e es IH]; intros s Hp Hs Hes.
  - simpl. now rewrite Hp.
  - simpl in Hes. apply andb_true_iff in Hes. destruct Hes as [He Hes].
    destruct e as [o | | keyCode now | t1 c1]; try discriminate.
    change (run ((AnimationFrame t1 c1 :: es)
                 ++ [ AnimationFrame timestamp canvas ]) s)
      with (run (es ++ [ AnimationFrame timestamp canvas ])
              (dispatch (AnimationFrame t1 c1) s)).
    simpl dispatch. rewrite Hp.
    rewrite IH; [now apply gameLoop_after_gameLoop | exact Hp | | exact Hes].
    simpl. now rewrite latch_latched.
Qed.

Lemma last_frame_decides_positions_witness :
  run [ AnimationFrame 1500 canvas_800x600;
        AnimationFrame 2000 {| width := 400; height := 300 |};
        AnimationFrame 3000 canvas_800x600 ] session_three
  = gameLoop 3000 canvas_800x600 session_three.
Proof.
  apply (last_frame_decides_positions
           [ AnimationFrame 1500 canvas_800x600;
             AnimationFrame 2000 {| width := 400; height := 300 |} ]
           3000 canvas_800x600 session_three); try reflexivity.
  intros H; discriminate H.
Defined.

(** ** Positions on the canvas *)

Lemma gameLoop_nth (timestamp : Q) (canvas : Canvas) (s : State)
    (i : nat) (n' : Note) :
  nth_error (notes (gameLoop timestamp canvas s)) i = Some n' ->
  exists n,
    nth_error (notes s) i = Some n
    /\ n' = reposition (frameCurrentTime timestamp s) canvas n.
Proof.
  rewrite gameLoop_notes, nth_error_map.
  destruct (nth_error (notes s) i) as [n|]; simpl; [|discriminate].
  intros H. injection H as <-. now exists n.
Qed.

(** X11. With the start latched, from one frame to the next every note moves up
    by 200 pixels per second of frame time, that is by
    (t2 - t1) / 1000 * 200 pixels, on a canvas of unchanged height. *)
Theorem notes_rise_200_pixels_per_second (t1 t2 : Q) (c1 c2 : Canvas)
    (s : State) (i : nat) (n1 n2 : Note) :
  ~ startTimeRef s == 0 ->
  height c2 = height c1 ->
  nth_error (notes (gameLoop t1 c1 s)) i = Some n1 ->
  nth_error (notes (gameLoop t2 c2 (gameLoop t1 c1 s))) i = Some n2 ->
  time n2 = time n1
  /\ direction n2 = direction n1
  /\ y n2 == y n1 - (t2 - t1) / 1000 * 200.
Proof.
  intros Hs Hh H1 H2.
  rewrite gameLoop_after_gameLoop in H2 by assumption.
  apply gameLoop_nth in H1. destruct H1 as (n & Hn & ->).
  apply gameLoop_nth in H2. destruct H2 as (m & Hm & ->).
  assert (m = n) by congruence. subst m.
  split; [reflexivity|]. split; [reflexivity|].
  simpl. unfold frameCurrentTime, speed.
  rewrite !latch_latched by assumption. rewrite Hh. field.
Qed.

Lemma notes_rise_200_pixels_per_second_witness :
  exists n1 n2,
    nth_error (notes (gameLoop 2000 canvas_800x600 session_up)) 0 = Some n1
    /\ nth_error (notes (gameLoop 2500 canvas_800x600
                           (gameLoop 2000 canvas_800x600 session_up))) 0
       = Some n2
    /\ y n2 == y n1 - 100.
Proof.
  assert (Hs : ~ startTimeRef session_up == 0) by (intros H; discriminate H).
  eexists. eexists. split; [reflexivity|]. split; [reflexivity|].
  destruct (notes_rise_200_pixels_per_second 2000 2500 canvas_800x600
              canvas_800x600 session_up 0 _ _ Hs eq_refl eq_refl eq_refl)
    as (_ & _ & Hy).
  rewrite Hy. reflexivity.
Defined.

Lemma platform_key_never_hits_witness :
  handleKeyDown 38 (Date_now page_timeOrigin 3000) session_up = session_up.
Proof.
  apply platform_key_never_hits.
  - reflexivity.
  - intros H; discriminate H.
  - intros n [<-|[]]. intros H; discriminate H.
Defined.

(** ** The console *)

(** X15. [console.error] is called once for every load that fails and on no
    other occasion. *)
Theorem console_counts_failed_loads (es : list Event) (s : State) :
  length (console (run es s)) = (length (console s) + failed_loads es)%nat.
Proof.
  revert s; induction es as [|e es IH]; intros s.
  - simpl. unfold failed_loads. simpl. lia.
  - rewrite run_cons, IH. unfold failed_loads. simpl filter.
    destruct e as [o | | keyCode now | timestamp canvas]; simpl dispatch.
    + unfold load_failed, loadMidi.
      destruct (loadMidi_try o); simpl; lia.
    + simpl. lia.
    + destruct (isPlaying s) eqn:Hp.
      * destruct (handleKeyDown_cases keyCode now s Hp)
          as [[_ E] | (l1 & n & l2 & _ & _ & _ & E)]; rewrite E; simpl; lia.
      * rewrite handleKeyDown_idle by assumption. lia.
    + destruct (isPlaying s); simpl; lia.
Qed.

(** ** The picture *)

Lemma paint_all_app (l1 l2 : list CanvasCall) (g : Painted) :
  paint_all (l1 ++ l2) g = paint_all l2 (paint_all l1 g).
Proof. apply fold_left_app. Qed.

Lemma quarter_turns :
  cos_quarter 0 = 1 /\ sin_quarter 0 = 0
  /\ cos_quarter 1 = 0 /\ sin_quarter 1 = 1
  /\ cos_quarter 2 = -1 /\ sin_quarter 2 = 0
  /\ cos_quarter (-1) = 0 /\ sin_quarter (-1) = -1.
Proof. repeat split. Qed.

Ltac paint_geometry :=
  unfold point_eq;
  cbv beta iota zeta delta
    [paint ctm saved path cleared stroked filled transform fst snd
     m_a m_b m_c m_d m_e m_f identity blank y direction heading];
  destruct quarter_turns as (C0 & S0 & C1 & S1 & C2 & S2 & C3 & S3);
  rewrite ?C0, ?S0, ?C1, ?S1, ?C2, ?S2, ?C3, ?S3;
  try first [ ring | split; ring ].

(** One call of the [forEach] callback paints one triangle and leaves the
    transformation and the stack as they were. *)
Lemma paint_draw_note (canvas : Canvas) (n : Note) (g : Painted) :
  ctm g = identity ->
  exists tri,
    paint_all (draw_note canvas n) g
    = {| ctm := identity; saved := saved g; path := [ tri ];
         cleared := cleared g; stroked := stroked g;
         filled := filled g ++ [ tri ] |}
    /\ Forall2 point_eq tri
         (arrow_at (lane_x canvas (indexOf lane_order (direction n))) (y n)
            (heading (direction n))).
Proof.
  intros Hg. destruct g as [m sv pa cl st fi]. simpl in Hg. subst m.
  destruct n as [t d yy]. destruct d as [[]|];
    (eexists; split; [reflexivity|]);
    repeat constructor; paint_geometry.
Qed.

Lemma same_shapes_app (a a' b b' : list (list Point)) :
  same_shapes a a' -> same_shapes b b' -> same_shapes (a ++ b) (a' ++ b').
Proof. apply Forall2_app. Qed.

Lemma paint_notes (canvas : Canvas) (l : list Note) (g : Painted) :
  ctm g = identity ->
  exists tris,
    filled (paint_all (flat_map (draw_note canvas) l) g) = filled g ++ tris
    /\ same_shapes tris
         (map (fun n => arrow_at
                          (lane_x canvas (indexOf lane_order (direction n)))
                          (y n) (heading (direction n))) l)
    /\ ctm (paint_all (flat_map (draw_note canvas) l) g) = identity
    /\ saved (paint_all (flat_map (draw_note canvas) l) g) = saved g
    /\ cleared (paint_all (flat_map (draw_note canvas) l) g) = cleared g
    /\ stroked (paint_all (flat_map (draw_note canvas) l) g) = stroked g.
Proof.
  revert g; induction l as [|n l IH]; intros g Hg.
  - exists []. simpl. rewrite app_nil_r. repeat split; try assumption.
    constructor.
  - destruct (paint_draw_note canvas n g Hg) as (tri & E & Htri).
    cbn [flat_map]. rewrite paint_all_app, E.
    match goal with
    | |- context [paint_all _ ?g1] =>
        destruct (IH g1 eq_refl) as (tris & Hf & Hs & Hc & Hsv & Hcl & Hst)
    end.
    exists (tri :: tris). rewrite Hf, Hc, Hsv, Hcl, Hst. cbn [filled saved
      cleared stroked]. rewrite <- app_assoc. repeat split.
    constructor; assumption.
Qed.

Lemma paint_lanes (canvas : Canvas) :
  paint_all
    ([ clearRect 0 0 (inject_Z (width canvas)) (inject_Z (height canvas));
       set_strokeStyle (lit "#333"); set_lineWidth 2 ]
     ++ flat_map (draw_lane canvas) [ 0; 1; 2; 3 ]%Z) blank
  = {| ctm := identity; saved := [];
       path := [ [ transform identity (lane_x canvas 3, 0);
                   transform identity
                     (lane_x canvas 3, inject_Z (height canvas)) ] ];
       cleared := [ (0, 0, inject_Z (width canvas),
                     inject_Z (height canvas)) ];
       stroked :=
         map (fun i => [ transform identity (lane_x canvas i, 0);
                         transform identity
                           (lane_x canvas i, inject_Z (height canvas)) ])
           [ 0; 1; 2; 3 ]%Z;
       filled := [] |}.
Proof. reflexivity. Qed.

Lemma lanes_shapes (canvas : Canvas) :
  same_shapes
    (map (fun i => [ transform identity (lane_x canvas i, 0);
                     transform identity
                       (lane_x canvas i, inject_Z (height canvas)) ])
       [ 0; 1; 2; 3 ]%Z)
    (map (fun f => [ (inject_Z (width canvas) * f, 0);
                     (inject_Z (width canvas) * f,
                      inject_Z (height canvas)) ])
       [ 0.3; 0.45; 0.6; 0.75 ]).
Proof.
  repeat constructor; unfold lane_x, transform, identity;
    cbn [fst snd m_a m_b m_c m_d m_e m_f];
    change (inject_Z 0) with 0; change (inject_Z 1) with 1;
    change (inject_Z 2) with 2; change (inject_Z 3) with 3; ring.
Qed.

Lemma painted_frame (canvas : Canvas) (s : State) :
  let p := paint_all (gameLoop_draws canvas s) blank in
  cleared p = [ (0, 0, inject_Z (width canvas), inject_Z (height canvas)) ]
  /\ same_shapes (stroked p)
       (map (fun f => [ (inject_Z (width canvas) * f, 0);
                        (inject_Z (width canvas) * f,
                         inject_Z (height canvas)) ])
          [ 0.3; 0.45; 0.6; 0.75 ])
  /\ same_shapes (filled p)
       (map (fun n => arrow_at
                        (lane_x canvas (indexOf lane_order (direction n)))
                        (y n) (heading (direction n))) (notes s))
  /\ ctm p = identity
  /\ saved p = [].
Proof.
  intros p. subst p. unfold gameLoop_draws.
  rewrite app_assoc, paint_all_app, paint_lanes.
  match goal with
  | |- context [paint_all _ ?g] =>
      destruct (paint_notes canvas (notes s) g eq_refl)
        as (tris & Ef & Htris & Ec & Esv & Ecl & Est)
  end.
  rewrite Ef, Ec, Esv, Ecl, Est. cbn [filled saved cleared stroked app].
  repeat split; try assumption. apply lanes_shapes.
Qed.

(** X16. The picture one run of [gameLoop] paints on a fresh context: the canvas
    is cleared once, the four target lines are stroked from top to bottom at
    30%, 45%, 60% and 75% of the width, and for every note of the committed
    list one triangle is filled, based at the note's stored [y] on the x of
    its lane, 20 wide, with its tip 15 away in the note's direction (upwards
    for a note without direction).  The transformation is the identity again
    afterwards and nothing is left on the stack. *)
Theorem picture_of_a_frame (canvas : Canvas) (s : State) :
  let p := paint_all (gameLoop_draws canvas s) blank in
  cleared p = [ (0, 0, inject_Z (width canvas), inject_Z (height canvas)) ]
  /\ same_shapes (stroked p)
       (map (fun f => [ (inject_Z (width canvas) * f, 0);
                        (inject_Z (width canvas) * f,
                         inject_Z (height canvas)) ])
          [ 0.3; 0.45; 0.6; 0.75 ])
  /\ same_shapes (filled p)
       (map (fun n => arrow_at
                        (lane_x canvas (indexOf lane_order (direction n)))
                        (y n) (heading (direction n))) (notes s))
  /\ ctm p = identity
  /\ saved p = [].
Proof. apply painted_frame. Qed.

(** X17. Where the arrows are drawn across the canvas: a note with a direction
    sits on the target line of its lane, the lanes being Left, Up, Down,
    Right from left to right, not the order of the key table; a note without
    direction gets index -1 and is drawn at 15% of the width, to the left of
    every target line on a canvas of positive width. *)
Theorem arrows_sit_on_their_lanes (canvas : Canvas) :
  (0 < width canvas)%Z ->
  let x := fun d => lane_x canvas (indexOf lane_order d) in
  (forall d, x (Some d) = lane_x canvas (lane_of d)
             /\ In (lane_of d) [ 0; 1; 2; 3 ]%Z)
  /\ x None == inject_Z (width canvas) * 0.15
  /\ x None < x (Some LEFT)
  /\ x (Some LEFT) < x (Some UP)
  /\ x (Some UP) < x (Some DOWN)
  /\ x (Some DOWN) < x (Some RIGHT).
Proof.
  intros Hw x. subst x. cbv beta.
  assert (Hw' : 0 < inject_Z (width canvas)).
  { change 0 with (inject_Z 0). now rewrite <- Zlt_Qlt. }
  split.
  { intros []; (split; [reflexivity | simpl; tauto]). }
  change (indexOf lane_order None) with (-1)%Z.
  change (indexOf lane_order (Some LEFT)) with 0%Z.
  change (indexOf lane_order (Some UP)) with 1%Z.
  change (indexOf lane_order (Some DOWN)) with 2%Z.
  change (indexOf lane_order (Some RIGHT)) with 3%Z.
  unfold lane_x.
  change (inject_Z (-1)) with (-1). change (inject_Z 0) with 0.
  change (inject_Z 1) with 1. change (inject_Z 2) with 2.
  change (inject_Z 3) with 3.
  repeat split; try ring; nra.
Qed.

Lemma arrows_sit_on_their_lanes_witness :
  lane_x canvas_800x600 (indexOf lane_order None) == 120
  /\ lane_x canvas_800x600 (indexOf lane_order (Some DOWN)) == 480.
Proof.
  destruct (arrows_sit_on_their_lanes canvas_800x600) as (Hl & Hn & _);
    [reflexivity|].
  split.
  - rewrite Hn. reflexivity.
  - rewrite (proj1 (Hl DOWN)). reflexivity.
Defined.

(** X18. The picture lags one frame behind the positions: the frame that follows
    a frame at [t1] paints every note where the frame at [t1] put it, at
    (time - elapsed(t1)) * 200 + height - 50, whatever its own timestamp. *)
Theorem picture_lags_one_frame (t1 : Q) (c1 c2 : Canvas) (s : State) :
  same_shapes
    (filled (paint_all (gameLoop_draws c2 (gameLoop t1 c1 s)) blank))
    (map (fun n =>
            arrow_at (lane_x c2 (indexOf lane_order (direction n)))
              ((time n - frameCurrentTime t1 s) * 200
               + inject_Z (height c1) - 50)
              (heading (direction n))) (notes s)).
Proof.
  destruct (painted_frame c2 (gameLoop t1 c1 s)) as (_ & _ & H & _).
  rewrite gameLoop_notes, map_map in H. exact H.
Qed.

(** * Storage helpers *)

(** ** [sanitizeFilename] *)

Lemma underscore_not_plain : is_plain underscore = false.
Proof. reflexivity. Qed.

Lemma plain_not_diacritic (c : Z) : is_plain c = true -> is_diacritic c = false.
Proof. unfold is_plain, is_diacritic. lia. Qed.

Lemma plain_not_underscore (c : Z) :
  is_plain c = true -> (c =? underscore)%Z = false.
Proof. unfold is_plain, underscore. lia. Qed.

Lemma safe_not_diacritic (c : Z) : is_safe c = true -> is_diacritic c = false.
Proof. unfold is_safe, is_plain, is_diacritic, underscore. lia. Qed.

Lemma squeeze_safe (b : bool) (s : JSString) :
  Forall (fun c => is_safe c = true) s ->
  Forall (fun c => is_safe c = true) (squeeze_underscores b s).
Proof.
  revert b; induction s as [|c r IH]; intros b H; simpl; [constructor|].
  inversion H as [|? ? Hc Hr]; subst.
  destruct (c =? underscore)%Z; [destruct b|];
    try (constructor; [reflexivity || assumption|]); now apply IH.
Qed.

Lemma squeeze_single (s : JSString) (b : bool) :
  single_underscores (squeeze_underscores b s)
  /\ (b = true -> forall c r, squeeze_underscores b s = c :: r ->
                              c <> underscore).
Proof.
  revert b; induction s as [|c r IH]; intros b; simpl.
  - split; [exact I | intros _ ? ? H; discriminate H].
  - destruct (Z.eqb_spec c underscore) as [->|Hc].
    + destruct b.
      * apply IH.
      * destruct (IH true) as [Hs Hh]. split; [|discriminate].
        destruct (squeeze_underscores true r) as [|c' r'] eqn:E;
          [exact I|].
        split; [|exact Hs]. intros [_ ->].
        now apply (Hh eq_refl underscore r').
    + destruct (IH false) as [Hs _]. split.
      * destruct (squeeze_underscores false r) as [|c' r'] eqn:E;
          [exact I|].
        split; [|exact Hs]. intros [-> _]. now apply Hc.
      * intros _ c0 r0 H. injection H as <- _. exact Hc.
Qed.

Lemma squeeze_length (b : bool) (s : JSString) :
  (length (squeeze_underscores b s) <= length s)%nat.
Proof.
  revert b; induction s as [|c r IH]; intros b; simpl; [lia|].
  pose proof (IH true) as Ht. pose proof (IH false) as Hf.
  destruct (c =? underscore)%Z; [destruct b|]; simpl; lia.
Qed.

Lemma squeeze_keeps_plain (b : bool) (s : JSString) :
  filter is_plain (squeeze_underscores b s) = filter is_plain s.
Proof.
  revert b; induction s as [|c r IH]; intros b; simpl; [reflexivity|].
  destruct (Z.eqb_spec c underscore) as [->|Hc].
  - rewrite underscore_not_plain. destruct b; simpl;
      rewrite ?underscore_not_plain; apply IH.
  - simpl. now rewrite IH.
Qed.

Lemma squeeze_fixes (s : JSString) (b : bool) :
  single_underscores s ->
  (b = true -> forall c r, s = c :: r -> c <> underscore) ->
  squeeze_underscores b s = s.
Proof.
  revert b; induction s as [|c r IH]; intros b Hs Hb; simpl; [reflexivity|].
  destruct (Z.eqb_spec c underscore) as [->|Hc].
  - destruct b.
    + exfalso. now apply (Hb eq_refl underscore r).
    + f_equal. apply IH.
      * destruct r as [|c' r']; [exact I | apply Hs].
      * intros _ c' r' ->. destruct Hs as [Hn _]. intros ->. now apply Hn.
  - f_equal. apply IH.
    + destruct r as [|c' r']; [exact I | apply Hs].
    + discriminate.
Qed.

Lemma sanitized_shape (normalize : JSString -> JSString)
    (filename : JSString) :
  Forall (fun c => is_safe c = true) (sanitizeFilename normalize filename)
  /\ single_underscores (sanitizeFilename normalize filename)
  /\ (length (sanitizeFilename normalize filename)
      <= length (normalize filename))%nat.
Proof.
  unfold sanitizeFilename. split; [| split].
  - apply squeeze_safe. apply Forall_forall. intros c Hc.
    apply in_map_iff in Hc. destruct Hc as (c0 & <- & _).
    unfold is_safe. destruct (is_plain c0) eqn:E; [now rewrite E|].
    reflexivity.
  - apply squeeze_single.
  - etransitivity; [apply squeeze_length|]. rewrite length_map.
    apply filter_length_le.
Qed.

(** X19. Whatever the name and whatever normalization does, the sanitized name
    consists of letters, digits, dots, dashes and underscores only, never has
    two underscores in a row, and is no longer than the normalized name. *)
Theorem sanitizeFilename_safe (normalize : JSString -> JSString)
    (filename : JSString) :
  Forall (fun c => is_safe c = true) (sanitizeFilename normalize filename)
  /\ single_underscores (sanitizeFilename normalize filename)
  /\ (length (sanitizeFilename normalize filename)
      <= length (normalize filename))%nat.
Proof. apply sanitized_shape. Qed.

(** X20. The letters, digits, dots and dashes of the normalized name all survive,
    in their order: only other code units are dropped or replaced. *)
Theorem sanitizeFilename_keeps_plain (normalize : JSString -> JSString)
    (filename : JSString) :
  filter is_plain (sanitizeFilename normalize filename)
  = filter is_plain (normalize filename).
Proof.
  unfold sanitizeFilename. rewrite squeeze_keeps_plain.
  induction (normalize filename) as [|c r IH]; simpl; [reflexivity|].
  destruct (is_plain c) eqn:Hc.
  - rewrite (plain_not_diacritic c Hc). simpl. rewrite Hc. simpl.
    rewrite Hc. now rewrite IH.
  - destruct (is_diacritic c); simpl; [exact IH|].
    rewrite Hc, underscore_not_plain. exact IH.
Qed.

Lemma sanitize_fixes_safe (normalize : JSString -> JSString) (s : JSString) :
  normalize s = s ->
  Forall (fun c => is_safe c = true) s ->
  single_underscores s ->
  sanitizeFilename normalize s = s.
Proof.
  intros Hn Hsafe Hsingle. unfold sanitizeFilename. rewrite Hn.
  assert (Hf : filter (fun c => negb (is_diacritic c)) s = s).
  { clear Hn Hsingle. induction Hsafe as [|c r Hc Hr IH]; simpl;
      [reflexivity|].
    rewrite (safe_not_diacritic c Hc). simpl. now rewrite IH. }
  assert (Hm : map (fun c => if is_plain c then c else underscore) s = s).
  { clear Hn Hsingle Hf. induction Hsafe as [|c r Hc Hr IH]; simpl;
      [reflexivity|].
    rewrite IH. f_equal. unfold is_safe in Hc.
    destruct (is_plain c); [reflexivity|]. simpl in Hc.
    symmetry. now apply Z.eqb_eq. }
  rewrite Hf, Hm. apply squeeze_fixes; [assumption | discriminate].
Qed.

(** X21. Sanitizing twice is sanitizing once, provided normalization leaves
    strings of letters, digits, dots, dashes and underscores alone (as NFD
    does with ASCII). *)
Theorem sanitizeFilename_idempotent (normalize : JSString -> JSString)
    (filename : JSString) :
  (forall s, Forall (fun c => is_safe c = true) s -> normalize s = s) ->
  sanitizeFilename normalize (sanitizeFilename normalize filename)
  = sanitizeFilename normalize filename.
Proof.
  intros Hn.
  destruct (sanitized_shape normalize filename) as (Hs & H1 & _).
  apply sanitize_fixes_safe; [now apply Hn | assumption | assumption].
Qed.

Lemma sanitizeFilename_idempotent_witness :
  sanitizeFilename no_normalization
    (sanitizeFilename no_normalization (file_name sample_file))
  = lit "my_song_1_.mp3".
Proof.
  rewrite (sanitizeFilename_idempotent no_normalization
             (file_name sample_file)); [reflexivity|].
  intros s _. reflexivity.
Defined.

(** ** [uploadFile] *)

Lemma lit_inj (a b : string) : lit a = lit b -> a = b.
Proof.
  unfold lit. intros H.
  rewrite <- (string_of_list_ascii_of_string a),
          <- (string_of_list_ascii_of_string b).
  f_equal. revert H.
  generalize (list_ascii_of_string a) (list_ascii_of_string b).
  induction l as [|x l IH]; intros [|y l'] H; simpl in H;
    try discriminate; [reflexivity|].
  injection H as Hxy Hl. f_equal; [|now apply IH].
  apply N2Z.inj in Hxy.
  rewrite <- (ascii_N_embedding x), <- (ascii_N_embedding y).
  now rewrite Hxy.
Qed.

Lemma digits_inj (a b : N) : digits a = digits b -> a = b.
Proof.
  unfold digits. intros H. apply lit_inj in H.
  apply DecimalN.Unsigned.to_uint_inj.
  assert (Hnil : forall n, N.to_uint n <> Decimal.Nil).
  { intros [|p]; [discriminate | apply DecimalPos.Unsigned.to_uint_nonnil]. }
  apply (f_equal DecimalString.NilZero.uint_of_string) in H.
  rewrite !DecimalString.NilZero.usu in H by apply Hnil.
  now injection H.
Qed.

Lemma digits_are_digits (n : N) :
  Forall (fun c => (48 <= c <= 57)%Z) (digits n).
Proof.
  unfold digits.
  assert (H : forall d,
             Forall (fun c => (48 <= c <= 57)%Z)
               (lit (DecimalString.NilEmpty.string_of_uint d))).
  { induction d; simpl; constructor; try assumption; simpl; lia. }
  generalize (N.to_uint n). intros d.
  destruct d as [|d|d|d|d|d|d|d|d|d|d];
    [ repeat constructor; simpl; lia
    | exact (H (Decimal.D0 d)) | exact (H (Decimal.D1 d))
    | exact (H (Decimal.D2 d)) | exact (H (Decimal.D3 d))
    | exact (H (Decimal.D4 d)) | exact (H (Decimal.D5 d))
    | exact (H (Decimal.D6 d)) | exact (H (Decimal.D7 d))
    | exact (H (Decimal.D8 d)) | exact (H (Decimal.D9 d)) ].
Qed.

Lemma split_at_first_dash (d1 d2 s1 s2 : JSString) :
  Forall (fun c => (48 <= c <= 57)%Z) d1 ->
  Forall (fun c => (48 <= c <= 57)%Z) d2 ->
  d1 ++ 45%Z :: s1 = d2 ++ 45%Z :: s2 ->
  d1 = d2 /\ s1 = s2.
Proof.
  revert d2; induction d1 as [|c d1 IH]; intros [|c' d2] H1 H2 H;
    simpl in H.
  - injection H as ->. now split.
  - injection H as <- _. inversion H2; subst. lia.
  - injection H as -> _. inversion H1; subst. lia.
  - injection H as -> H. inversion H1; inversion H2; subst.
    destruct (IH d2) as [-> ->]; try assumption. now split.
Qed.

Lemma upload_fileName_parts (normalize : JSString -> JSString)
    (timestamp : Z) (file : File) :
  (0 <= timestamp)%Z ->
  upload_fileName normalize timestamp file
  = digits (Z.to_N timestamp)
    ++ 45%Z :: sanitizeFilename normalize (file_name file).
Proof.
  intros H. unfold upload_fileName, decimal.
  destruct (Z.ltb_spec timestamp 0) as [Hneg|_]; [lia|]. reflexivity.
Qed.

Lemma upload_fileName_safe (normalize : JSString -> JSString)
    (timestamp : Z) (file : File) :
  (0 <= timestamp)%Z ->
  Forall (fun c => is_safe c = true)
    (upload_fileName normalize timestamp file).
Proof.
  intros H. rewrite upload_fileName_parts by assumption.
  apply Forall_app. split.
  - eapply Forall_impl; [| apply digits_are_digits].
    intros c Hc. unfold is_safe, is_plain. simpl in Hc. lia.
  - constructor; [reflexivity | apply sanitized_shape].
Qed.

(** X22. [uploadFile] stores the file under a name made of letters, digits,
    dots, dashes and underscores only; it returns the public URL of exactly
    that name in the same bucket, and only when the storage reported no
    error; an error of the storage is logged and thrown as it is. *)
Theorem uploadFile_outcome {E : Type} (normalize : JSString -> JSString)
    (upload : JSString -> JSString -> File -> option E)
    (getPublicUrl : JSString -> JSString -> JSString)
    (now : Z) (file : File) (bucket : Bucket) :
  (0 <= now)%Z ->
  let fileName := upload_fileName normalize now file in
  let answer := upload (STORAGE_BUCKETS bucket) fileName file in
  let result := uploadFile normalize upload getPublicUrl now file bucket in
  Forall (fun c => is_safe c = true) fileName
  /\ (forall error,
         answer = Some error <->
         result = ([ log_uploading fileName (file_type file);
                     log_upload_error error ], inl error))
  /\ (answer = None <->
      result = ([ log_uploading fileName (file_type file) ],
                inr (getPublicUrl (STORAGE_BUCKETS bucket) fileName))).
Proof.
  intros Hnow fileName answer result.
  split; [now apply upload_fileName_safe|].
  subst result. unfold uploadFile. cbv zeta. fold fileName. fold answer.
  destruct answer as [e|]; split.
  - intros error. split.
    + intros H. injection H as <-. reflexivity.
    + intros H. injection H as _ H. now rewrite H.
  - split; [discriminate | intros H; discriminate H].
  - intros error. split; [discriminate | intros H; discriminate H].
  - split; reflexivity.
Qed.

Lemma uploadFile_outcome_witness :
  snd (uploadFile no_normalization storage_accepts public_url
         1700000003000 sample_file MP3)
  = inr (lit "https://storage.example/mp3-files/1700000003000-my_song_1_.mp3")
  /\ snd (uploadFile no_normalization storage_refuses public_url
            1700000003000 sample_file MP3)
     = inl 409%Z.
Proof.
  destruct (uploadFile_outcome no_normalization storage_accepts public_url
              1700000003000 sample_file MP3) as (_ & _ & Hok); [lia|].
  destruct (uploadFile_outcome no_normalization storage_refuses public_url
              1700000003000 sample_file MP3) as (_ & Herr & _); [lia|].
  split.
  - rewrite (proj1 Hok eq_refl). reflexivity.
  - rewrite (proj1 (Herr 409%Z) eq_refl). reflexivity.
Defined.

(** X23. The stored name determines both the timestamp and the sanitized name:
    two uploads get the same name only when they happen in the same
    millisecond with names that sanitize to the same string. *)
Theorem upload_fileName_unique (normalize : JSString -> JSString)
    (now1 now2 : Z) (file1 file2 : File) :
  (0 <= now1)%Z -> (0 <= now2)%Z ->
  (upload_fileName normalize now1 file1 = upload_fileName normalize now2 file2
   <-> now1 = now2
       /\ sanitizeFilename normalize (file_name file1)
          = sanitizeFilename normalize (file_name file2)).
Proof.
  intros H1 H2. rewrite !upload_fileName_parts by assumption. split.
  - intros H. apply split_at_first_dash in H; try apply digits_are_digits.
    destruct H as [Hd Hs]. split; [|exact Hs].
    apply digits_inj in Hd. lia.
  - intros [-> ->]. reflexivity.
Qed.

Lemma upload_fileName_unique_witness :
  upload_fileName no_normalization 1700000003000 sample_file
  <> upload_fileName no_normalization 1700000003001 sample_file.
Proof.
  intros H.
  apply (upload_fileName_unique no_normalization 1700000003000 1700000003001
           sample_file sample_file) in H; [|lia|lia].
  destruct H as [H _]. discriminate H.
Defined.

(** * The redirect page *)

(** X24. [GameRedirect] sends the browser to the home page exactly when the [id]
    parameter is missing or empty; otherwise it sends it to [/game/] followed
    by the id as it is, so different ids never lead to the same page. *)
Theorem GameRedirect_target (gameId : option JSString) :
  (GameRedirect gameId = lit "/" <-> gameId = None \/ gameId = Some [])
  /\ (forall id, gameId = Some id -> id <> [] ->
                 GameRedirect gameId = lit "/game/" ++ id)
  /\ (forall id other,
         gameId = Some id -> id <> [] -> other <> [] ->
         GameRedirect gameId = GameRedirect (Some other) -> id = other).
Proof.
  split; [| split].
  - destruct gameId as [[|c r]|]; simpl; split; auto.
    + intros H. vm_compute in H. destruct r; discriminate H.
    + intros [H|H]; discriminate H.
  - intros id -> Hid. destruct id as [|c r]; [contradiction | reflexivity].
  - intros id other -> Hid Hother.
    destruct id as [|c r]; [contradiction|].
    destruct other as [|c' r']; [contradiction|].
    simpl. intros H. injection H as -> ->. reflexivity.
Qed.

Lemma GameRedirect_target_witness :
  GameRedirect (Some (lit "42")) = lit "/game/42"
  /\ GameRedirect (Some (lit "")) = lit "/"
  /\ GameRedirect None = lit "/".
Proof.
  destruct (GameRedirect_target (Some (lit "42"))) as (_ & H & _).
  destruct (GameRedirect_target (Some (lit ""))) as (He & _).
  destruct (GameRedirect_target None) as (Hn & _).
  split; [| split].
  - rewrite (H (lit "42") eq_refl); [reflexivity | discriminate].
  - apply He. now right.
  - apply Hn. now left.
Defined.

(** * Frames, keys and the interface *)

Lemma isHit_reposition (keyCode : Z) (e e' : Q) (canvas : Canvas) (n : Note) :
  isHit keyCode e (reposition e' canvas n) = isHit keyCode e n.
Proof. reflexivity. Qed.

Lemma gameLoop_latched (timestamp : Q) (canvas : Canvas) (s : State) :
  ~ startTimeRef s == 0 ->
  gameLoop timestamp canvas s
  = setNotes (map (reposition ((timestamp - startTimeRef s) / 1000) canvas)) s.
Proof.
  intros H. unfold gameLoop, frameCurrentTime.
  rewrite (latch_latched timestamp s H).
  destruct s; reflexivity.
Qed.

(** X25. Rendering and judging do not interfere: with the start latched, a frame
    followed by a key event gives the same state as the key event followed
    by the frame.  The frame only rewrites positions, which the judge never
    reads; the judge only removes a note, which the frame never needs. *)
Theorem frame_and_key_commute (keyCode now : Z) (timestamp : Q)
    (canvas : Canvas) (s : State) :
  ~ startTimeRef s == 0 ->
  handleKeyDown keyCode now (gameLoop timestamp canvas s)
  = gameLoop timestamp canvas (handleKeyDown keyCode now s).
Proof.
  intros Hs. rewrite (gameLoop_latched timestamp canvas s Hs).
  set (r := reposition ((timestamp - startTimeRef s) / 1000) canvas).
  destruct (isPlaying s) eqn:Hp.
  - assert (Hp' : isPlaying (setNotes (map r) s) = true) by exact Hp.
    assert (Ht : keyCurrentTime now (setNotes (map r) s)
                 = keyCurrentTime now s) by reflexivity.
    destruct (handleKeyDown_cases keyCode now s Hp)
      as [[Hnone E] | (l1 & n & l2 & Hsplit & Hpre & Hn & E)]; rewrite E.
    + rewrite (gameLoop_latched timestamp canvas s Hs). fold r.
      apply handleKeyDown_miss; [exact Hp'|].
      rewrite Ht. simpl. intros m Hm. apply in_map_iff in Hm.
      destruct Hm as (m0 & <- & Hm0). apply (Hnone m0 Hm0).
    + rewrite gameLoop_latched by exact Hs.
      change (startTimeRef (hit_state (l1 ++ l2) s)) with (startTimeRef s).
      fold r.
      rewrite (handleKeyDown_hit keyCode now (setNotes (map r) s)
                 (map r l1) (r n) (map r l2) Hp').
      * unfold hit_state, setNotes, setScore. simpl. now rewrite map_app.
      * simpl. now rewrite Hsplit, map_app.
      * rewrite Ht. intros m Hm. apply in_map_iff in Hm.
        destruct Hm as (m0 & <- & Hm0). apply (Hpre m0 Hm0).
      * rewrite Ht. exact Hn.
  - rewrite !handleKeyDown_idle by assumption.
    now rewrite (gameLoop_latched timestamp canvas s Hs).
Qed.

Lemma frame_and_key_commute_witness :
  handleKeyDown 38 3050 (gameLoop 3000 canvas_800x600 session_three)
  = gameLoop 3000 canvas_800x600 (handleKeyDown 38 3050 session_three).
Proof.
  apply frame_and_key_commute. intros H; discriminate H.
Defined.

Lemma ui_run_app (es1 es2 : list Event) (s : State) :
  ui_run (es1 ++ es2) s = ui_run es2 (ui_run es1 s).
Proof. apply fold_left_app. Qed.

Lemma ui_dispatch_step (e : Event) (s : State) :
  idle_is_fresh s ->
  idle_is_fresh (ui_dispatch e s)
  /\ (score s <= score (ui_dispatch e s))%Z
  /\ (~ startTimeRef s == 0 ->
      startTimeRef (ui_dispatch e s) = startTimeRef s).
Proof.
  intros Hi.
  assert (Hsame : idle_is_fresh s
                  /\ (score s <= score s)%Z
                  /\ (~ startTimeRef s == 0 -> startTimeRef s = startTimeRef s)).
  { split; [exact Hi | split; [lia | reflexivity]]. }
  destruct e as [o | | keyCode now | timestamp canvas]; simpl.
  - unfold loadMidi. destruct (loadMidi_try o); exact Hsame.
  - destruct (isPlaying s) eqn:Hp; [exact Hsame|].
    destruct (Hi Hp) as [Hsc Hst]. split; [| split].
    + intros H; discriminate H.
    + simpl. lia.
    + intros H. exfalso. apply H. now rewrite Hst.
  - destruct (isPlaying s) eqn:Hp.
    + destruct (candidates_after_press keyCode now s Hp)
        as (_ & Hsc & Hst & Hp').
      split; [| split].
      * intros H. rewrite Hp' in H. discriminate H.
      * rewrite Hsc. lia.
      * intros _. exact Hst.
    + rewrite handleKeyDown_idle by assumption. exact Hsame.
  - destruct (isPlaying s) eqn:Hp; [|exact Hsame].
    split; [| split].
    + intros H. simpl in H. congruence.
    + simpl. lia.
    + intros H. simpl. now apply latch_latched.
Qed.

Lemma ui_run_steps (es : list Event) (s : State) :
  idle_is_fresh s ->
  idle_is_fresh (ui_run es s)
  /\ (score s <= score (ui_run es s))%Z
  /\ (~ startTimeRef s == 0 -> startTimeRef (ui_run es s) = startTimeRef s).
Proof.
  revert s; induction es as [|e es IH]; intros s Hi.
  - simpl. split; [exact Hi | split; [lia | reflexivity]].
  - destruct (ui_dispatch_step e s Hi) as (Hi' & Hsc & Hst).
    destruct (IH (ui_dispatch e s) Hi') as (Hi'' & Hsc' & Hst').
    change (ui_run (e :: es) s) with (ui_run es (ui_dispatch e s)).
    split; [exact Hi'' | split; [lia|]].
    intros H. rewrite Hst'; [now apply Hst|]. now rewrite (Hst H).
Qed.

(** X26. Through the rendered interface there is no restart: the Start button is
    gone once a session is active, so from the mounted component on the
    score never decreases at all, and the start timestamp, once latched by a
    frame, keeps its value for the rest of the component's life. *)
Theorem interface_never_restarts (before after : list Event) :
  let s1 := ui_run before mount in
  let s2 := ui_run (before ++ after) mount in
  (score s1 <= score s2)%Z
  /\ (isPlaying s1 = true -> isPlaying s2 = true)
  /\ (~ startTimeRef s1 == 0 -> startTimeRef s2 = startTimeRef s1).
Proof.
  intros s1 s2. subst s1 s2. rewrite ui_run_app.
  assert (H0 : idle_is_fresh mount) by (intros _; now split).
  destruct (ui_run_steps before mount H0) as (H1 & _ & _).
  destruct (ui_run_steps after (ui_run before mount) H1) as (H2 & Hsc & Hst).
  split; [exact Hsc|]. split; [|exact Hst].
  intros Hp. destruct (isPlaying (ui_run after (ui_run before mount))) eqn:E;
    [reflexivity|].
  exfalso. clear - Hp E.
  revert Hp E. generalize (ui_run before mount). 
  induction after as [|e es IH]; intros s Hp E.
  - simpl in E. congruence.
  - change (ui_run (e :: es) s) with (ui_run es (ui_dispatch e s)) in E.
    apply (IH (ui_dispatch e s)); [|exact E].
    destruct e as [o | | keyCode now | timestamp canvas]; simpl.
    + unfold loadMidi. now destruct (loadMidi_try o).
    + now rewrite Hp.
    + now destruct (candidates_after_press keyCode now s Hp) as (_ & _ & _ & H).
    + now rewrite Hp.
Qed.

Lemma interface_never_restarts_witness :
  (100 <= score (ui_run [ LoadSettled (Parsed midi_up); StartPressed;
                          AnimationFrame 1000 canvas_800x600; KeyDown 38 3050;
                          StartPressed ] mount))%Z.
Proof.
  exact (proj1 (interface_never_restarts
                  [ LoadSettled (Parsed midi_up); StartPressed;
                    AnimationFrame 1000 canvas_800x600; KeyDown 38 3050 ]
                  [ StartPressed ])).
Defined.
